(** * YFOptimizer: the YellowFin tuner on top of MXNet's momentum SGD

    A shallow embedding of [src/main.py], class [YFOptimizer].

    Conventions of the model.
    - A Python/NumPy/MXNet float is a real number.  Rounding, overflow and
      the non-finite values are outside this model; the solver, whose bounds
      rounding decides, is also given under a rounding of each operation and
      in binary64 (see the solver in floating point).  Where the source divides,
      the model divides by way of [fdiv], which raises [ZeroDivisionError] on
      a zero divisor: this is what Python does on floats; NumPy scalars and
      NDArrays would carry on with inf or nan, values the reals do not have,
      so the model stops there.  [np.sqrt] of a negative number is nan, and
      the one place where the source can meet it is modelled with an option.
    - An NDArray is the list of its entries; every tensor of one parameter
      has one shape, and an element-wise operation on operands of different
      lengths raises [MXNetError] (broadcasting is not modelled).
    - A method of [self] is a computation in the monad [M YFOptimizer]: it
      takes the object, returns the mutated object and either a value or the
      exception raised.  What was mutated before an exception stays mutated.
    - [np.roots], [sgd_update] and [sgd_mom_update] are library routines; the
      development is parametric in them. *)

From Stdlib Require Import Floats.PrimFloat.
From Stdlib Require Import Reals Lra Lia.
From stdpp Require Import base decidable option list gmap.

Local Open Scope R_scope.

(** ** Exceptions and the state-and-exception monad *)

Module Py.

Inductive exn : Set :=
  | AssertionError
  | ZeroDivisionError
  | IndexError
  | ValueError
  | TypeError
  | MXNetError.

Inductive result (A : Type) : Type :=
  | Ok (a : A)
  | Raise (e : exn).
Arguments Ok {A} a.
Arguments Raise {A} e.

Definition M (St A : Type) : Type := St -> result A * St.

Definition ret {St A} (a : A) : M St A := fun s => (Ok a, s).
Definition raise {St A} (e : exn) : M St A := fun s => (Raise e, s).
Definition bind {St A B} (m : M St A) (k : A -> M St B) : M St B :=
  fun s => match m s with
           | (Ok a, s') => k a s'
           | (Raise e, s') => (Raise e, s')
           end.
Definition get {St} : M St St := fun s => (Ok s, s).
Definition modify {St} (f : St -> St) : M St unit := fun s => (Ok tt, f s).
Definition lift {St A} (r : result A) : M St A := fun s => (r, s).

(** Run a computation on a component of the state. *)
Definition zoom {St T A} (proj : St -> T) (upd : T -> St -> St)
    (m : M T A) : M St A :=
  fun s => let '(r, t) := m (proj s) in (r, upd t s).

End Py.
Import Py.

#[global] Instance M_ret {St} : MRet (M St) := @ret St.
#[global] Instance M_bind {St} : MBind (M St) := fun A B k m => bind m k.
#[global] Instance result_bind : MBind result := fun A B k r =>
  match r with Ok a => k a | Raise e => Raise e end.

(** ** Numbers *)

#[global] Instance Rlt_decision (x y : R) : Decision (x < y) := Rlt_dec x y.
#[global] Instance Req_decision : EqDecision R := Req_dec_T.

(** [x / y] on floats. *)
Definition fdiv (x y : R) : result R :=
  if decide (y = 0) then Raise ZeroDivisionError else Ok (x / y).

(** [np.sqrt]: nan (here [None]) below zero. *)
Definition np_sqrt (x : R) : option R :=
  if decide (x < 0) then None else Some (sqrt x).

(** Python's [max(a, b)] is [b] when [b > a] and [a] otherwise; a nan [b]
    compares false, so [a] is returned. *)
Definition py_max (a : R) (b : option R) : R :=
  match b with
  | Some b => if decide (a < b) then b else a
  | None => a
  end.

Record complex : Set := Cplx { re : R; im : R }.

Definition Cadd (x y : complex) : complex := Cplx (re x + re y) (im x + im y).
Definition Cmul (x y : complex) : complex :=
  Cplx (re x * re y - im x * im y) (re x * im y + im x * re y).

(** The value at [z] of the polynomial with the given real coefficients,
    highest degree first, by Horner's rule. *)
Definition horner (coef : list R) (z : complex) : complex :=
  fold_left (fun acc c => Cadd (Cmul acc z) (Cplx c 0)) coef (Cplx 0 0).

Definition is_root (coef : list R) (z : complex) : Prop :=
  horner coef z = Cplx 0 0.

(** ** Tensors *)

Definition tensor : Type := list R.

Definition zeros (n : nat) : tensor := replicate n 0.

(** scalar * tensor *)
Definition scale (c : R) (t : tensor) : tensor := map (Rmult c) t.

(** tensor (op) tensor, element-wise, on one shape. *)
Definition ew (op : R -> R -> R) (a b : tensor) : result tensor :=
  if decide (length a = length b) then Ok (zip_with op a b)
  else Raise MXNetError.

(** [mx.ndarray.sum] *)
Definition tsum (t : tensor) : R := foldr Rplus 0 t.

(** [mx.ndarray.norm]: the L2 norm. *)
Definition norm (t : tensor) : R := sqrt (tsum (zip_with Rmult t t)).

(** [a.min()] and [a.max()] of a NumPy array: [ValueError] on an empty one. *)
Definition np_min (a : list R) : result R :=
  match a with
  | [] => Raise ValueError
  | x :: a' => Ok (foldr Rmin x a')
  end.

Definition np_max (a : list R) : result R :=
  match a with
  | [] => Raise ValueError
  | x :: a' => Ok (foldr Rmax x a')
  end.

(** [a[i] = v] on a NumPy array, for an index that is not negative. *)
Definition np_setitem (a : list R) (i : nat) (v : R) : result (list R) :=
  if decide (i < length a)%nat then Ok (<[i := v]> a) else Raise IndexError.

(** ** The base class, [mx.optimizer.Optimizer]

    The part of MXNet's base class that [YFOptimizer] calls: no learning-rate
    scheduler, no symbol attributes and no parameter names are configured
    (the constructor of [src/main.py] passes none). *)

Module MX.

Record Optimizer : Type := mkOptimizer {
  lr : R;
  wd : R;
  lr_mult : gmap nat R;
  wd_mult : gmap nat R;
  rescale_grad : R;
  clip_gradient : option R;
  begin_num_update : nat;
  num_update : nat;
  _index_update_count : gmap nat nat
}.

Definition _get_lr (o : Optimizer) (index : nat) : R :=
  lr o * default 1 (lr_mult o !! index).

Definition _get_wd (o : Optimizer) (index : nat) : R :=
  wd o * default 1 (wd_mult o !! index).

Definition _update_count (index : nat) (o : Optimizer) : Optimizer :=
  let c := S (default (begin_num_update o) (_index_update_count o !! index)) in
  mkOptimizer (lr o) (wd o) (lr_mult o) (wd_mult o) (rescale_grad o)
    (clip_gradient o) (begin_num_update o)
    (Nat.max c (num_update o)) (<[index := c]> (_index_update_count o)).

(** [set_lr_mult] starts from an empty dictionary. *)
Definition set_lr_mult (args_lr_mult : gmap nat R) (o : Optimizer) : Optimizer :=
  mkOptimizer (lr o) (wd o) (args_lr_mult ∪ ∅) (wd_mult o) (rescale_grad o)
    (clip_gradient o) (begin_num_update o) (num_update o)
    (_index_update_count o).

(** Keyword arguments handed to the update kernels. *)
Record kwargs : Type := mkKwargs {
  kw_rescale_grad : R;
  kw_momentum : option R;
  kw_clip_gradient : option R
}.

End MX.

(** ** The optimizer object *)

Record YFOptimizer : Type := mkYF {
  base : MX.Optimizer;
  momentum : R;
  beta : R;
  curv_win_width : nat;
  zero_bias : bool;
  _iter : nat;
  _h_min : R;
  _h_max : R;
  _h_window : list R;
  _grad_norm_avg : R;
  _h_avg : R;
  _dist_to_opt_avg : R
}.

Definition set_base (f : MX.Optimizer -> MX.Optimizer) (o : YFOptimizer) :=
  mkYF (f (base o)) (momentum o) (beta o) (curv_win_width o) (zero_bias o)
    (_iter o) (_h_min o) (_h_max o) (_h_window o) (_grad_norm_avg o)
    (_h_avg o) (_dist_to_opt_avg o).
Definition set_momentum (v : R) (o : YFOptimizer) :=
  mkYF (base o) v (beta o) (curv_win_width o) (zero_bias o)
    (_iter o) (_h_min o) (_h_max o) (_h_window o) (_grad_norm_avg o)
    (_h_avg o) (_dist_to_opt_avg o).
Definition set_zero_bias (v : bool) (o : YFOptimizer) :=
  mkYF (base o) (momentum o) (beta o) (curv_win_width o) v
    (_iter o) (_h_min o) (_h_max o) (_h_window o) (_grad_norm_avg o)
    (_h_avg o) (_dist_to_opt_avg o).
Definition set_iter (v : nat) (o : YFOptimizer) :=
  mkYF (base o) (momentum o) (beta o) (curv_win_width o) (zero_bias o)
    v (_h_min o) (_h_max o) (_h_window o) (_grad_norm_avg o)
    (_h_avg o) (_dist_to_opt_avg o).
Definition set_h_min (v : R) (o : YFOptimizer) :=
  mkYF (base o) (momentum o) (beta o) (curv_win_width o) (zero_bias o)
    (_iter o) v (_h_max o) (_h_window o) (_grad_norm_avg o)
    (_h_avg o) (_dist_to_opt_avg o).
Definition set_h_max (v : R) (o : YFOptimizer) :=
  mkYF (base o) (momentum o) (beta o) (curv_win_width o) (zero_bias o)
    (_iter o) (_h_min o) v (_h_window o) (_grad_norm_avg o)
    (_h_avg o) (_dist_to_opt_avg o).
Definition set_h_window (v : list R) (o : YFOptimizer) :=
  mkYF (base o) (momentum o) (beta o) (curv_win_width o) (zero_bias o)
    (_iter o) (_h_min o) (_h_max o) v (_grad_norm_avg o)
    (_h_avg o) (_dist_to_opt_avg o).
Definition set_grad_norm_avg (v : R) (o : YFOptimizer) :=
  mkYF (base o) (momentum o) (beta o) (curv_win_width o) (zero_bias o)
    (_iter o) (_h_min o) (_h_max o) (_h_window o) v
    (_h_avg o) (_dist_to_opt_avg o).
Definition set_h_avg (v : R) (o : YFOptimizer) :=
  mkYF (base o) (momentum o) (beta o) (curv_win_width o) (zero_bias o)
    (_iter o) (_h_min o) (_h_max o) (_h_window o) (_grad_norm_avg o)
    v (_dist_to_opt_avg o).
Definition set_dist_to_opt_avg (v : R) (o : YFOptimizer) :=
  mkYF (base o) (momentum o) (beta o) (curv_win_width o) (zero_bias o)
    (_iter o) (_h_min o) (_h_max o) (_h_window o) (_grad_norm_avg o)
    (_h_avg o) v.

(** [__init__(momentum, beta, curv_win_width, zero_bias, **kwargs)]: the
    attribute [curv_win_width] is the literal 20, the window is allocated
    with the argument. *)
Definition __init__ (momentum beta : R) (curv_win_width : nat)
    (zero_bias : bool) (kwargs : MX.Optimizer) : YFOptimizer :=
  mkYF kwargs momentum beta 20 zero_bias 0 0 0 (zeros curv_win_width) 0 0 0.

(** The defaults of the signature. *)
Definition default_momentum : R := 0.
Definition default_beta : R := 0.999.
Definition default_curv_win_width : nat := 20.
Definition default_zero_bias : bool := true.

Definition create_optimizer (kwargs : MX.Optimizer) : YFOptimizer :=
  __init__ default_momentum default_beta default_curv_win_width
    default_zero_bias kwargs.

(** The per-parameter state: the tuple [(momentum, grad_avg,
    grad_avg_squared)] made by [create_state]. *)
Record param_state : Type := mkState {
  st_momentum : tensor;
  grad_avg : tensor;
  grad_avg_squared : tensor
}.

Definition create_state (weight : tensor) : param_state :=
  mkState (zeros (length weight)) (zeros (length weight))
    (zeros (length weight)).

(** What one call of [update] can reach and mutate: the optimizer, the
    weight and the state tuple ([None] when the caller has none). *)
Record world : Type := mkWorld {
  self : YFOptimizer;
  weight : tensor;
  state : option param_state
}.

Definition on_self {A} (m : M YFOptimizer A) : M world A :=
  zoom self (fun o w => mkWorld o (weight w) (state w)) m.

(** ** The methods *)

(** [curvature_range(self, grad)] *)
Definition curvature_range (grad : tensor) : M YFOptimizer (R * R) :=
  s ← get;
  let beta := beta s in
  let grad_norm := norm grad in
  i ← (if decide (curv_win_width s = 0%nat) then raise ZeroDivisionError
       else ret (_iter s `mod` curv_win_width s)%nat);
  curv_win ← lift (np_setitem (_h_window s) i (grad_norm ^ 2));
  modify (set_h_window curv_win);;
  let valid_end := (curv_win_width s `min` (_iter s + 1))%nat in
  lo ← lift (np_min (take valid_end curv_win));
  modify (set_h_min (beta * _h_min s + (1 - beta) * lo));;
  hi ← lift (np_max (take valid_end curv_win));
  modify (set_h_max (beta * _h_max s + (1 - beta) * hi));;
  s' ← get;
  ret (_h_min s', _h_max s').

(** [zero_debias_factor(self)] *)
Definition zero_debias_factor (s : YFOptimizer) : R :=
  if zero_bias s then 1 else 1 - beta s ^ (_iter s + 1).

(** [grad_variance(self, grad, state)]: reads [self], mutates [state[1]]
    and [state[2]] in place. *)
Definition grad_variance (s : YFOptimizer) (grad : tensor)
    : M param_state R :=
  let beta := beta s in
  st ← get;
  ga ← lift (ew Rplus (scale beta (grad_avg st)) (scale (1 - beta) grad));
  modify (fun st => mkState (st_momentum st) ga (grad_avg_squared st));;
  sq ← lift (ew Rmult (scale (1 - beta) grad) grad);
  gas ← lift (ew Rplus (scale beta (grad_avg_squared st)) sq);
  modify (fun st => mkState (st_momentum st) (grad_avg st) gas);;
  let debias_factor := zero_debias_factor s in
  let grad_norm := norm grad in
  gaga ← lift (ew Rmult ga ga);
  a ← lift (fdiv (tsum gaga) (- (debias_factor ^ 2)));
  b ← lift (fdiv grad_norm debias_factor);
  ret (a + b).

(** [dist_to_opt(self, grad)] *)
Definition dist_to_opt (grad : tensor) : M YFOptimizer R :=
  s ← get;
  let beta := beta s in
  let grad_norm := norm grad in
  let gna := beta * _grad_norm_avg s + (1 - beta) * grad_norm in
  modify (set_grad_norm_avg gna);;
  let h_avg := beta * _h_avg s + (1 - beta) * grad_norm * grad_norm in
  modify (set_h_avg h_avg);;
  q ← lift (fdiv ((1 - beta) * gna) h_avg);
  let d := beta * _dist_to_opt_avg s + q in
  modify (set_dist_to_opt_avg d);;
  s' ← get;
  lift (fdiv d (zero_debias_factor s')).

(** The root filter of [single_step_mu_lr]:
    [np.real(roots) > 0.0], [np.real(roots) < 1.0], [np.imag(roots) < 1e-5]. *)
Definition root_filter (roots : list complex) : list complex :=
  filter (fun z => 0 < re z /\ re z < 1 /\ im z < 1e-5) roots.

Section Tuner.

(** [np.roots]: the roots of the polynomial with the given coefficients,
    highest degree first. *)
Variable np_roots : list R -> list complex.

(** [mx.optimizer.sgd_update(weight, grad, out=weight, lr, wd, **kwargs)]:
    the new weight. *)
Variable sgd_update : tensor -> tensor -> R -> R -> MX.kwargs -> result tensor.

(** [mx.optimizer.sgd_mom_update(weight, grad, mom, out=weight, lr, wd,
    **kwargs)]: the new weight and the new momentum buffer. *)
Variable sgd_mom_update :
  tensor -> tensor -> tensor -> R -> R -> MX.kwargs -> result (tensor * tensor).

(** [single_step_mu_lr(self, C, D, h_min, h_max)] *)
Definition single_step_mu_lr (C D h_min h_max : R) : M YFOptimizer (R * R) :=
  q ← lift (fdiv (D ^ 2 * h_min ^ 2 / 2) C);
  let coef := [-1; 3; - (3 + q); 1] in
  let roots := np_roots coef in
  let root := root_filter roots in
  match root with
  | [z] =>
      dr ← lift (fdiv h_max h_min);
      let hb := s ← np_sqrt dr; Some (((s - 1) / (s + 1)) ^ 2) in
      let mu_t := py_max (re z ^ 2) hb in
      lr_t ← lift (fdiv ((1 - sqrt mu_t) ^ 2) h_min);
      ret (mu_t, lr_t)
  | _ => raise AssertionError
  end.

(** [after_apply(self, index, grad, state, lr, momentum)] *)
Definition after_apply (index : nat) (grad : tensor) (lr momentum : R)
    : M world unit :=
  w ← get;
  let beta := beta (self w) in
  '(h_min, h_max) ← on_self (curvature_range grad);
  C ← (fun w : world =>
         match state w with
         | Some st =>
             let '(r, st') := grad_variance (self w) grad st in
             (r, mkWorld (self w) (weight w) (Some st'))
         | None => (Raise TypeError, w)
         end);
  D ← on_self (dist_to_opt grad);
  '(mu_t, lr_t) ← on_self (single_step_mu_lr C D h_min h_max);
  on_self (modify (set_momentum (beta * momentum + (1 - beta) * mu_t)));;
  on_self (modify (set_base
    (MX.set_lr_mult {[ index := beta * lr + (1 - beta) * lr_t ]}))).

(** The keyword arguments built by [update]. *)
Definition update_kwargs (s : YFOptimizer) : MX.kwargs :=
  MX.mkKwargs (MX.rescale_grad (base s))
    (if decide (0 < momentum s) then Some (momentum s) else None)
    (match MX.clip_gradient (base s) with
     | Some c => if decide (c = 0) then None else Some c
     | None => None
     end).

(** [update(self, index, weight, grad, state)] *)
Definition update (index : nat) (grad : tensor) : M world unit :=
  w0 ← get;
  let lr := MX._get_lr (base (self w0)) index in
  let wd := MX._get_wd (base (self w0)) index in
  on_self (modify (set_base (MX._update_count index)));;
  w ← get;
  let kwargs := update_kwargs (self w) in
  match state w with
  | Some st =>
      '(weight', mom') ←
        lift (sgd_mom_update (weight w) grad (st_momentum st) lr wd kwargs);
      modify (fun w => mkWorld (self w) weight'
                (Some (mkState mom' (grad_avg st) (grad_avg_squared st))));;
      after_apply index grad lr (momentum (self w))
  | None =>
      weight' ← lift (sgd_update (weight w) grad lr wd kwargs);
      modify (fun w => mkWorld (self w) weight' (state w))
  end;;
  on_self (modify (fun s => set_iter (_iter s + 1) s)).

(** The objects an optimizer can become: by a call of [curvature_range], or
    by a call of [update] on any weight and any state, returning or
    raising. *)
Inductive reachable (s0 : YFOptimizer) : YFOptimizer -> Prop :=
  | reach_init : reachable s0 s0
  | reach_curvature_range s grad :
      reachable s0 s ->
      reachable s0 (snd (curvature_range grad s))
  | reach_update s index grad wt st :
      reachable s0 s ->
      reachable s0
        (self (snd (update index grad
                      (mkWorld s wt st)))).

(** A run of calls of [update] with a state that all returned, and the
    gradients they were given, oldest first. *)
Inductive steps (s0 : YFOptimizer) : list tensor -> YFOptimizer -> Prop :=
  | steps_nil : steps s0 [] s0
  | steps_snoc gs s index grad wt st w' :
      steps s0 gs s ->
      update index grad
        (mkWorld s wt (Some st)) = (Ok tt, w') ->
      steps s0 (gs ++ [grad]) (self w').

End Tuner.

(** [grad_variance] called once per optimizer of the list, on one gradient;
    the state goes from call to call, whatever each call returns. *)
Fixpoint grad_variance_calls (ss : list YFOptimizer) (grad : tensor)
    (st : param_state) : param_state :=
  match ss with
  | [] => st
  | s :: ss' => grad_variance_calls ss' grad (snd (grad_variance s grad st))
  end.

(** [_h_min <= _h_max]. *)
Definition ordered (s : YFOptimizer) : Prop := _h_min s <= _h_max s.

(** The statistics that are averages of norms and of squared norms. *)
Definition nonnegative (s : YFOptimizer) : Prop :=
  0 <= _h_min s /\ 0 <= _h_max s /\ Forall (Rle 0) (_h_window s)
  /\ 0 <= _grad_norm_avg s /\ 0 <= _h_avg s /\ 0 <= _dist_to_opt_avg s.

(** ** The spec's names for the failures *)

(** The failure classes of the spec, read on what the source raises: a
    failed root-count assertion is the spec's numerical instability, a
    division fault is its degenerate curvature, a shape fault its shape
    mismatch. *)
Inductive spec_error : Set :=
  | NumericalInstabilityError
  | DegenerateCurvatureError
  | ShapeMismatchError.

Definition spec_error_of {A} (r : result A) : option spec_error :=
  match r with
  | Raise AssertionError => Some NumericalInstabilityError
  | Raise ZeroDivisionError => Some DegenerateCurvatureError
  | Raise MXNetError => Some ShapeMismatchError
  | _ => None
  end.

(** The root filter as the spec words it: real part in (0,1) and
    [|imag| < 1e-5]. *)
Definition spec_root_filter (roots : list complex) : list complex :=
  filter (fun z => 0 < re z /\ re z < 1 /\ Rabs (im z) < 1e-5) roots.

(** ** The solver in floating point *)

(** What the solver returns is decided, at the edges, by the rounding of its
    arithmetic.  [single_step_mu_lr] is therefore given twice more: with
    every operation rounded by a function [rnd], and in binary64 itself. *)

Section Rounding.

(** The rounding of an exact result to a float: round-to-nearest-even for
    binary64 (on the finite range), the identity for exact arithmetic. *)
Variable rnd : R -> R.

Variable np_roots : list R -> list complex.

(** [x / y] on floats, rounded. *)
Definition fdiv_rnd (x y : R) : result R :=
  q ← fdiv x y; Ok (rnd q).

(** [single_step_mu_lr(self, C, D, h_min, h_max)], each operation rounded.
    Negation is exact. *)
Definition single_step_mu_lr_rnd (C D h_min h_max : R)
    : M YFOptimizer (R * R) :=
  q ← lift (fdiv_rnd (rnd (rnd (rnd (D ^ 2) * rnd (h_min ^ 2)) / 2)) C);
  let coef := [-1; 3; - rnd (3 + q); 1] in
  let roots := np_roots coef in
  let root := root_filter roots in
  match root with
  | [z] =>
      dr ← lift (fdiv_rnd h_max h_min);
      let hb :=
        s ← np_sqrt dr;
        Some (rnd (rnd (rnd (rnd s - 1) / rnd (rnd s + 1)) ^ 2)) in
      let mu_t := py_max (rnd (re z ^ 2)) hb in
      lr_t ← lift (fdiv_rnd (rnd (rnd (1 - rnd (sqrt mu_t)) ^ 2)) h_min);
      ret (mu_t, lr_t)
  | _ => raise AssertionError
  end.

End Rounding.

(** Binary64.  A complex number is the pair of its real and imaginary
    parts; a comparison with a nan is false; [x ** 2] is [x * x].  The
    solver reads and writes nothing of the object, which is left out. *)
Definition fdiv_f64 (x y : float) : result float :=
  if (y =? 0)%float then Raise ZeroDivisionError else Ok (x / y)%float.

(** [1e-5] is the binary64 number [0x1.4f8b588e368f1p-17]. *)
Definition root_filter_f64 (roots : list (float * float))
    : list (float * float) :=
  List.filter
    (fun z => (0 <? fst z)%float && (fst z <? 1)%float
              && (snd z <? 0x1.4f8b588e368f1p-17)%float)
    roots.

(** Python's [max(a, b)] on floats. *)
Definition py_max_f64 (a b : float) : float :=
  if (a <? b)%float then b else a.

Definition single_step_mu_lr_f64
    (np_roots : list float -> list (float * float))
    (C D h_min h_max : float) : result (float * float) :=
  q ← fdiv_f64 (D * D * (h_min * h_min) / 2)%float C;
  let coef := [-1; 3; - (3 + q); 1]%float in
  let roots := np_roots coef in
  let root := root_filter_f64 roots in
  match root with
  | [z] =>
      dr ← fdiv_f64 h_max h_min;
      let hb := ((PrimFloat.sqrt dr - 1) / (PrimFloat.sqrt dr + 1))%float in
      let mu_t := py_max_f64 (fst z * fst z)%float (hb * hb)%float in
      let t := (1 - PrimFloat.sqrt mu_t)%float in
      lr_t ← fdiv_f64 (t * t)%float h_min;
      Ok (mu_t, lr_t)
  | _ => Raise AssertionError
  end.

(** ** Inputs of the concrete runs *)

(** An optimizer base with learning rate 1, no weight decay, no clipping. *)
Definition kwargs0 : MX.Optimizer := MX.mkOptimizer 1 0 ∅ ∅ 1 None 0 0 ∅.

(** The roots of [x^3 - 3x^2 + 2.5x - 1 = (x - 2)(x^2 - x + 0.5)]. *)
Definition conjugate_pair (_ : list R) : list complex :=
  [Cplx 2 0; Cplx (1/2) (1/2); Cplx (1/2) (-1/2)].

(** What [np.roots] returns for [-(x-1)^3]: the eigenvalue routine splits
    the triple root 1 into three simple ones, [1.0000066] and
    [0.9999967 +- 5.7e-6i]. *)
Definition roots_near_one (_ : list R) : list complex :=
  [Cplx 1.0000066 0; Cplx 0.9999967 0.0000057; Cplx 0.9999967 (-0.0000057)].

(** The roots of [-x^3 + 3x^2 - 3.5x + 1] in binary64:
    [0.41024548769854163] and [1.2948772561507291 +- 0.8722716254613286i]. *)
Definition one_real_root (_ : list float) : list (float * float) :=
  [(0x1.a41764a3fcbaep-2, 0);
   (0x1.4b7d136b8068ap+0, 0x1.be9a62f12b9b1p-1);
   (0x1.4b7d136b8068ap+0, -0x1.be9a62f12b9b1p-1)]%float.

(** A rounding small enough to follow by hand: to the nearest multiple of
    [1/4], halves upwards. *)
Definition rnd_quarter (x : R) : R := IZR (Zfloor (x * 4 + 1 / 2)) / 4.

(** Instances of the library routines: the kernels without clipping. *)
Definition sgd_update0 (weight grad : tensor) (lr wd : R) (kw : MX.kwargs)
    : result tensor :=
  ew (fun w g => w - lr * (MX.kw_rescale_grad kw * g + wd * w)) weight grad.

Definition sgd_mom_update0 (weight grad mom : tensor) (lr wd : R)
    (kw : MX.kwargs) : result (tensor * tensor) :=
  g ← ew (fun w g => MX.kw_rescale_grad kw * g + wd * w) weight grad;
  mom' ← ew (fun m g => default 0 (MX.kw_momentum kw) * m - lr * g) mom g;
  weight' ← ew Rplus weight mom';
  Ok (weight', mom').

Definition half_root (_ : list R) : list complex := [Cplx (1/2) 0].

(** ** Proof support *)

Ltac unfold_monad :=
  unfold mbind, mret, M_bind, M_ret, bind, ret, raise, get, modify, lift,
    on_self, zoom in *.

(** Arithmetic with remainders modulo 20. *)
Ltac mod_lia :=
  repeat match goal with
  | |- context [(?a `mod` 20)%nat] =>
      let q := fresh "q" in let r := fresh "r" in
      pose proof (Nat.div_mod_eq a 20);
      pose proof (Nat.mod_upper_bound a 20 ltac:(lia));
      set (q := (a `div` 20)%nat) in *; set (r := (a `mod` 20)%nat) in *;
      clearbody q r
  | H : context [(?a `mod` 20)%nat] |- _ =>
      let q := fresh "q" in let r := fresh "r" in
      pose proof (Nat.div_mod_eq a 20);
      pose proof (Nat.mod_upper_bound a 20 ltac:(lia));
      set (q := (a `div` 20)%nat) in *; set (r := (a `mod` 20)%nat) in *;
      clearbody q r
  end; lia.

Lemma fdiv_ok x y : y <> 0 -> fdiv x y = Ok (x / y).
Proof. intros Hy. unfold fdiv. by rewrite decide_False. Qed.

Lemma ew_ok (op : R -> R -> R) (a b : tensor) :
  length a = length b -> ew op a b = Ok (zip_with op a b).
Proof. intros Hl. unfold ew. by rewrite decide_True. Qed.

Lemma zip_with_scale (op : R -> R -> R) (b c : R) (x y : tensor) :
  zip_with op (scale b x) (scale c y)
  = zip_with (fun u v => op (b * u) (c * v)) x y.
Proof.
  unfold scale. revert y. induction x as [|u x IH]; intros [|v y]; simpl; auto.
  by rewrite IH.
Qed.

Lemma length_scale c (t : tensor) : length (scale c t) = length t.
Proof. unfold scale. apply length_map. Qed.

(** ** The debias factor *)

(** C8. At every step count, [zero_debias_factor] is exactly 1 when
    [zero_bias] is true, which is the default of the constructor, and
    [1 - beta^(step_count+1)] when [zero_bias] is false. *)
Theorem zero_debias_factor_cases (s : YFOptimizer) (n : nat) (kwargs : MX.Optimizer) :
  zero_debias_factor (set_iter n (set_zero_bias true s)) = 1
  /\ zero_debias_factor (set_iter n (set_zero_bias false s))
     = 1 - beta s ^ (n + 1)
  /\ zero_bias (create_optimizer kwargs) = true.
Proof. repeat split. Qed.

(** ** The gradient variance *)

Lemma ema_squared (b c : R) (q g : tensor) :
  zip_with Rplus (scale b q) (zip_with Rmult (scale c g) g)
  = zip_with (fun a x => b * a + c * x * x) q g.
Proof.
  unfold scale. revert g. induction q as [|u q IH]; intros [|v g]; simpl; auto.
  by rewrite IH.
Qed.

(** C2. [grad_variance] first overwrites [grad_avg] with
    [beta*grad_avg + (1-beta)*grad] and [grad_avg_squared] with
    [beta*grad_avg_squared + (1-beta)*grad*grad], element by element, and then
    returns [sum(grad_avg*grad_avg) / -(debias^2) + norm(grad)/debias] on the
    new [grad_avg]; the returned value is the same whatever
    [grad_avg_squared] holds. *)
Theorem grad_variance_spec (s : YFOptimizer) (grad : tensor) (st : param_state) :
  length (grad_avg st) = length grad ->
  length (grad_avg_squared st) = length grad ->
  zero_debias_factor s <> 0 ->
  let b := beta s in
  let debias := zero_debias_factor s in
  let ga := zip_with (fun a g => b * a + (1 - b) * g) (grad_avg st) grad in
  let gas :=
    zip_with (fun a g => b * a + (1 - b) * g * g) (grad_avg_squared st) grad in
  grad_variance s grad st
  = (Ok (tsum (zip_with Rmult ga ga) / - (debias ^ 2) + norm grad / debias),
     mkState (st_momentum st) ga gas)
  /\ forall other : tensor,
       length other = length grad ->
       fst (grad_variance s grad
              (mkState (st_momentum st) (grad_avg st) other))
       = fst (grad_variance s grad st).
Proof.
  intros Hga Hgas Hd b debias ga gas.
  assert (Hrun : forall m a q, length a = length grad -> length q = length grad ->
    grad_variance s grad (mkState m a q)
    = (Ok (tsum (zip_with Rmult
                   (zip_with (fun a g => b * a + (1 - b) * g) a grad)
                   (zip_with (fun a g => b * a + (1 - b) * g) a grad))
             / - (debias ^ 2) + norm grad / debias),
       mkState m (zip_with (fun a g => b * a + (1 - b) * g) a grad)
         (zip_with (fun a g => b * a + (1 - b) * g * g) q grad))).
  { intros m a q Ha Hq. unfold grad_variance. unfold_monad. cbn [grad_avg grad_avg_squared st_momentum].
    rewrite !ew_ok by (rewrite ?length_scale, ?length_zip_with, ?length_scale; lia).
    assert (Hd2 : - debias ^ 2 <> 0) by (intros H; apply Hd; fold debias; nra).
    fold b debias. rewrite !fdiv_ok by done.
    rewrite !zip_with_scale, ema_squared. done. }
  split.
  - destruct st as [m a q]. apply Hrun; done.
  - intros other Ho. destruct st as [m a q]. cbn [st_momentum grad_avg].
    rewrite !Hrun by done. done.
Qed.

(** ** The curvature range *)

Lemma foldr_Rmin_le (x : R) (a : list R) : foldr Rmin x a <= x.
Proof.
  induction a as [|y a IH]; simpl; [lra|].
  pose proof (Rmin_r y (foldr Rmin x a)). lra.
Qed.

Lemma foldr_Rmax_ge (x : R) (a : list R) : x <= foldr Rmax x a.
Proof.
  induction a as [|y a IH]; simpl; [lra|].
  pose proof (Rmax_r y (foldr Rmax x a)). lra.
Qed.

Lemma np_min_le_np_max (a : list R) (lo hi : R) :
  np_min a = Ok lo -> np_max a = Ok hi -> lo <= hi.
Proof.
  destruct a as [|x a]; simpl; [discriminate|].
  intros [= <-] [= <-].
  pose proof (foldr_Rmin_le x a). pose proof (foldr_Rmax_ge x a). lra.
Qed.

(** What [curvature_range] leaves alone whatever it returns. *)
Lemma curvature_range_frame (grad : tensor) (s : YFOptimizer) :
  let s' := snd (curvature_range grad s) in
  base s' = base s /\ momentum s' = momentum s /\ beta s' = beta s
  /\ curv_win_width s' = curv_win_width s /\ zero_bias s' = zero_bias s
  /\ _iter s' = _iter s /\ _grad_norm_avg s' = _grad_norm_avg s
  /\ _h_avg s' = _h_avg s /\ _dist_to_opt_avg s' = _dist_to_opt_avg s
  /\ length (_h_window s') = length (_h_window s).
Proof.
  unfold curvature_range. unfold_monad. unfold np_setitem.
  repeat (case_decide; cbn [fst snd]); try done.
  destruct (np_min _); cbn; try (rewrite ?length_insert; done).
  destruct (np_max _); cbn; rewrite ?length_insert; done.
Qed.

(** One call keeps the order of the two averages, for an averaging
    coefficient between 0 and 1. *)
Lemma curvature_range_order (grad : tensor) (s : YFOptimizer) :
  0 <= beta s <= 1 -> _h_min s <= _h_max s ->
  _h_min (snd (curvature_range grad s)) <= _h_max (snd (curvature_range grad s)).
Proof.
  intros Hb Hs. unfold curvature_range. unfold_monad. unfold np_setitem.
  repeat (case_decide; cbn [fst snd]); try done.
  destruct (np_min _) as [lo|] eqn:Hlo; cbn; try done.
  destruct (np_max _) as [hi|] eqn:Hhi; cbn.
  - pose proof (np_min_le_np_max _ _ _ Hlo Hhi). nra.
  - destruct (take _ _); discriminate.
Qed.

Lemma dist_to_opt_frame (grad : tensor) (s : YFOptimizer) :
  let s' := snd (dist_to_opt grad s) in
  base s' = base s /\ momentum s' = momentum s /\ beta s' = beta s
  /\ curv_win_width s' = curv_win_width s /\ zero_bias s' = zero_bias s
  /\ _iter s' = _iter s /\ _h_min s' = _h_min s /\ _h_max s' = _h_max s
  /\ _h_window s' = _h_window s.
Proof.
  unfold dist_to_opt. unfold_monad. cbn.
  destruct (fdiv _ _); cbn; done.
Qed.

Section TunerFacts.

Variable np_roots : list R -> list complex.
Variable sgd_update : tensor -> tensor -> R -> R -> MX.kwargs -> result tensor.
Variable sgd_mom_update :
  tensor -> tensor -> tensor -> R -> R -> MX.kwargs -> result (tensor * tensor).

(** The solver reads its arguments only: the object is handed back as it
    came, whatever the outcome. *)
Lemma single_step_mu_lr_pure (C D h_min h_max : R) (s : YFOptimizer) :
  snd (single_step_mu_lr np_roots C D h_min h_max s) = s.
Proof.
  unfold single_step_mu_lr. unfold_monad.
  destruct (fdiv _ C); cbn; [|done].
  destruct (root_filter _) as [|z [|z' l]]; cbn; try done.
  destruct (fdiv h_max h_min); cbn; [|done].
  destruct (fdiv _ h_min); cbn; done.
Qed.

Lemma after_apply_ordered (index : nat) (grad : tensor) (lr mom : R) (w : world) :
  0 <= beta (self w) <= 1 -> ordered (self w) ->
  let w' := snd (after_apply np_roots index grad lr mom w) in
  beta (self w') = beta (self w) /\ ordered (self w').
Proof.
  intros Hb Ho. unfold after_apply. unfold_monad. cbn [self weight state].
  pose proof (curvature_range_order grad (self w) Hb Ho) as Hc.
  pose proof (curvature_range_frame grad (self w)) as Hf.
  destruct (curvature_range grad (self w)) as [[[h_min h_max]|e] s1];
    cbn [fst snd self weight state] in *; [|tauto].
  destruct Hf as (_ & _ & Hb1 & _).
  destruct (state w) as [st|]; cbn [fst snd self weight state]; [|tauto].
  destruct (grad_variance s1 grad st) as [[C|e] st'];
    cbn [fst snd self weight state]; [|tauto].
  pose proof (dist_to_opt_frame grad s1) as Hd.
  destruct (dist_to_opt grad s1) as [[D|e] s2];
    cbn [fst snd self weight state] in *;
    destruct Hd as (_ & _ & Hb2 & _ & _ & _ & Hlo & Hhi & _);
    [|unfold ordered; rewrite Hb2, Hlo, Hhi; tauto].
  pose proof (single_step_mu_lr_pure C D h_min h_max s2) as Hp.
  destruct (single_step_mu_lr np_roots C D h_min h_max s2) as [[[mu_t lr_t]|e] s3];
    cbn [fst snd self weight state] in *; subst s3;
    unfold ordered; cbn; rewrite ?Hb2, ?Hlo, ?Hhi; tauto.
Qed.

Lemma update_ordered (index : nat) (grad : tensor) (w : world) :
  0 <= beta (self w) <= 1 -> ordered (self w) ->
  let w' := snd (update np_roots sgd_update sgd_mom_update index grad w) in
  beta (self w') = beta (self w) /\ ordered (self w').
Proof.
  intros Hb Ho. unfold update. unfold_monad. cbn [self weight state].
  destruct (state w) as [st|]; cbn [fst snd self weight state].
  - destruct (sgd_mom_update _ _ _ _ _ _) as [[weight' mom']|e];
      cbn [fst snd self weight state]; [|unfold ordered in *; cbn; tauto].
    match goal with |- context [after_apply ?r ?i ?g ?l ?m ?w1] =>
      pose proof (after_apply_ordered i g l m w1 Hb Ho) as Ha;
      destruct (after_apply r i g l m w1) as [[[]|e] w2]
    end; unfold ordered in *; cbn in *; tauto.
  - destruct (sgd_update _ _ _ _ _) as [weight'|e];
      unfold ordered in *; cbn; tauto.
Qed.

(** C6. Whatever the gradients and however many steps were made, after each
    [curvature_range] update [_h_min <= _h_max]: both averages start at 0,
    and each update adds the window minimum to one and the window maximum
    to the other with the same weights [beta] and [1 - beta], taken between
    0 and 1 as an averaging coefficient is.  Nothing clamps the pair. *)
Theorem h_min_le_h_max (mom b : R) (W : nat) (zb : bool) (kwargs : MX.Optimizer)
    (s : YFOptimizer) :
  0 <= b <= 1 ->
  reachable np_roots sgd_update sgd_mom_update
    (__init__ mom b W zb kwargs) s ->
  _h_min s <= _h_max s.
Proof.
  intros Hb Hr.
  enough (beta s = b /\ ordered s) as [_ H] by exact H.
  induction Hr as [|s grad Hr [IHb IHo]|s index grad wt st Hr [IHb IHo]].
  - split; [done|]. unfold ordered; cbn. lra.
  - pose proof (curvature_range_frame grad s) as (_ & _ & Hb' & _).
    split; [congruence|].
    apply curvature_range_order; [rewrite IHb|]; done.
  - pose proof (update_ordered index grad (mkWorld s wt st)) as Hu.
    cbn [self] in Hu. rewrite IHb in Hu. destruct (Hu Hb IHo) as [H1 H2].
    split; done.
Qed.

End TunerFacts.

(** ** The solver *)

Lemma py_max_Rmax (a b : R) : py_max a (Some b) = Rmax a b.
Proof.
  unfold py_max, Rmax. case_decide; destruct (Rle_dec a b); lra.
Qed.

Lemma in_root_filter (z : complex) (roots : list complex) :
  z ∈ root_filter roots <->
  (0 < re z /\ re z < 1 /\ im z < 1e-5) /\ z ∈ roots.
Proof. unfold root_filter. by rewrite list_elem_of_filter. Qed.

Lemma div_bounds (a b : R) :
  0 < b ->
  (0 <= a -> 0 <= a / b) /\ (0 < a -> 0 < a / b)
  /\ (a < b -> a / b < 1) /\ (b <= a -> 1 <= a / b).
Proof.
  intros Hb. pose proof (Rinv_0_lt_compat b Hb) as Hi.
  assert (Hm : b * / b = 1) by (apply Rinv_r; lra).
  unfold Rdiv. repeat split; intros Ha; nra.
Qed.

(** The heavy-ball term of a ratio that is at least 1. *)
Lemma heavy_ball_range (dr : R) :
  1 <= dr -> 0 <= ((sqrt dr - 1) / (sqrt dr + 1)) ^ 2 < 1.
Proof.
  intros Hdr.
  assert (Hs : 1 <= sqrt dr).
  { rewrite <- sqrt_1. apply sqrt_le_1_alt. exact Hdr. }
  set (t := sqrt dr) in *.
  assert (Ht : 0 <= (t - 1) / (t + 1) < 1).
  { split; apply div_bounds; lra. }
  nra.
Qed.

Section Solver.

Variable np_roots : list R -> list complex.

(** The run of the solver when the divisions are defined and one root
    passes the filter. *)
Lemma single_step_mu_lr_run (C D h_min h_max : R) (z : complex)
    (s : YFOptimizer) :
  C <> 0 -> h_min <> 0 -> 0 <= h_max / h_min ->
  root_filter (np_roots [-1; 3; - (3 + D ^ 2 * h_min ^ 2 / 2 / C); 1]) = [z] ->
  let mu := Rmax (re z ^ 2) (((sqrt (h_max / h_min) - 1)
                              / (sqrt (h_max / h_min) + 1)) ^ 2) in
  single_step_mu_lr np_roots C D h_min h_max s
  = (Ok (mu, (1 - sqrt mu) ^ 2 / h_min), s).
Proof.
  intros HC Hh Hdr Hroot mu. unfold single_step_mu_lr. unfold_monad.
  rewrite (fdiv_ok _ C) by done. rewrite Hroot.
  rewrite !(fdiv_ok _ h_min) by done.
  unfold np_sqrt. rewrite decide_False by lra. cbn [mbind option_bind].
  rewrite py_max_Rmax. done.
Qed.

(** C5. With [r] the real part of the one root that passes the filter, for
    the cubic of coefficients [-1, 3, p2, 1] where
    [p2 = -(3 + D^2 * h_min^2 / (2*C))] sits at index 2, the solver returns
    [mu = max(r^2, ((sqrt(dr)-1)/(sqrt(dr)+1))^2)] with [dr = h_max/h_min]
    and [lr = (1 - sqrt(mu))^2 / h_min]. *)
Theorem single_step_mu_lr_formula (C D h_min h_max : R) (z : complex)
    (s : YFOptimizer) :
  C <> 0 -> h_min <> 0 -> 0 <= h_max / h_min ->
  let p2 := - (3 + D ^ 2 * h_min ^ 2 / (2 * C)) in
  root_filter (np_roots [-1; 3; p2; 1]) = [z] ->
  let r := re z in
  let dr := h_max / h_min in
  let mu := Rmax (r ^ 2) (((sqrt dr - 1) / (sqrt dr + 1)) ^ 2) in
  single_step_mu_lr np_roots C D h_min h_max s
  = (Ok (mu, (1 - sqrt mu) ^ 2 / h_min), s).
Proof.
  intros HC Hh Hdr p2 Hroot r dr mu.
  apply single_step_mu_lr_run; try done.
  replace (- (3 + D ^ 2 * h_min ^ 2 / 2 / C)) with p2; [done|].
  unfold p2. field. done.
Qed.

(** In exact arithmetic, for [0 < h_min <= h_max], [C > 0] and exactly one
    root passing the filter, the momentum is strictly below 1 and the
    learning rate strictly above 0.  Rounding does not keep the strictness:
    see the solver under rounding below. *)
Lemma single_step_mu_lr_exact_range (C D h_min h_max : R) (z : complex)
    (s : YFOptimizer) :
  0 < h_min <= h_max -> 0 < C ->
  root_filter (np_roots [-1; 3; - (3 + D ^ 2 * h_min ^ 2 / 2 / C); 1]) = [z] ->
  exists mu lr_t : R,
    single_step_mu_lr np_roots C D h_min h_max s = (Ok (mu, lr_t), s)
    /\ 0 <= mu < 1 /\ 0 < lr_t.
Proof.
  intros [Hh Hhh] HC Hroot.
  assert (Hdr : 1 <= h_max / h_min) by (apply div_bounds; lra).
  assert (Hz : 0 < re z < 1).
  { assert (Hin : z ∈ root_filter
      (np_roots [-1; 3; - (3 + D ^ 2 * h_min ^ 2 / 2 / C); 1]))
      by (rewrite Hroot; apply list_elem_of_here).
    apply in_root_filter in Hin. tauto. }
  pose proof (heavy_ball_range _ Hdr) as Hhb.
  eexists _, _. split.
  - apply (single_step_mu_lr_run C D h_min h_max z s); try lra. exact Hroot.
  - set (hb := ((sqrt (h_max / h_min) - 1) / (sqrt (h_max / h_min) + 1)) ^ 2) in *.
    set (mu := Rmax (re z ^ 2) hb).
    assert (Hmu : 0 <= mu < 1).
    { unfold mu. split.
      - eapply Rle_trans; [|apply Rmax_r]. lra.
      - apply Rmax_lub_lt; nra. }
    split; [exact Hmu|].
    assert (Hs : sqrt mu < 1).
    { rewrite <- sqrt_1. apply sqrt_lt_1_alt. lra. }
    apply div_bounds; [lra|]. nra.
Qed.

End Solver.

(** ** The solver under rounding *)

Section RoundedSolver.

Variable rnd : R -> R.
Variable np_roots : list R -> list complex.

(** What the bounds need of the rounding: it keeps the order, and 0 and 1
    are floats. *)
Hypothesis rnd_mono : forall x y : R, x <= y -> rnd x <= rnd y.
Hypothesis rnd_0 : rnd 0 = 0.
Hypothesis rnd_1 : rnd 1 = 1.

Lemma rnd_unit (x : R) : 0 <= x <= 1 -> 0 <= rnd x <= 1.
Proof.
  intros [H0 H1].
  pose proof (rnd_mono 0 x H0) as Hlo. pose proof (rnd_mono x 1 H1) as Hhi.
  rewrite rnd_0 in Hlo. rewrite rnd_1 in Hhi. done.
Qed.

Lemma rnd_nonneg (x : R) : 0 <= x -> 0 <= rnd x.
Proof. intros H. pose proof (rnd_mono 0 x H) as Hlo. by rewrite rnd_0 in Hlo. Qed.

Lemma rnd_ge_1 (x : R) : 1 <= x -> 1 <= rnd x.
Proof. intros H. pose proof (rnd_mono 1 x H) as Hhi. by rewrite rnd_1 in Hhi. Qed.

(** The rounded heavy-ball term of a ratio that is at least 1. *)
Lemma heavy_ball_rnd_range (dr : R) :
  1 <= dr ->
  let s := rnd (sqrt dr) in
  0 <= rnd (rnd (rnd (s - 1) / rnd (s + 1)) ^ 2) <= 1.
Proof.
  intros Hdr s.
  assert (Hs : 1 <= s).
  { apply rnd_ge_1. rewrite <- sqrt_1. apply sqrt_le_1_alt. exact Hdr. }
  assert (Ha : 0 <= rnd (s - 1)) by (apply rnd_nonneg; lra).
  assert (Hb : 1 <= rnd (s + 1)) by (apply rnd_ge_1; lra).
  assert (Hab : rnd (s - 1) <= rnd (s + 1)) by (apply rnd_mono; lra).
  assert (Hq : 0 <= rnd (rnd (s - 1) / rnd (s + 1)) <= 1).
  { apply rnd_unit. split.
    - apply div_bounds; lra.
    - destruct (Rle_lt_or_eq_dec _ _ Hab) as [Hlt|Heq].
      + left. apply div_bounds; lra.
      + rewrite Heq. right. field. lra. }
  apply rnd_unit. nra.
Qed.

(** The run of the rounded solver when the divisions are defined and one
    root passes the filter. *)
Lemma single_step_mu_lr_rnd_run (C D h_min h_max : R) (z : complex)
    (s : YFOptimizer) :
  C <> 0 -> h_min <> 0 -> 0 <= rnd (h_max / h_min) ->
  let p2 := - rnd (3 + rnd (rnd (rnd (rnd (D ^ 2) * rnd (h_min ^ 2)) / 2) / C)) in
  root_filter (np_roots [-1; 3; p2; 1]) = [z] ->
  let sq := rnd (sqrt (rnd (h_max / h_min))) in
  let hb := rnd (rnd (rnd (sq - 1) / rnd (sq + 1)) ^ 2) in
  let mu := Rmax (rnd (re z ^ 2)) hb in
  single_step_mu_lr_rnd rnd np_roots C D h_min h_max s
  = (Ok (mu, rnd (rnd (rnd (1 - rnd (sqrt mu)) ^ 2) / h_min)), s).
Proof.
  intros HC Hh Hdr p2 Hroot sq hb mu.
  unfold single_step_mu_lr_rnd, fdiv_rnd. unfold_monad.
  rewrite (fdiv_ok _ C) by done. cbn [mbind result_bind]. fold p2.
  rewrite Hroot.
  rewrite (fdiv_ok _ h_min) by done. cbn [mbind result_bind].
  unfold np_sqrt. rewrite decide_False by lra. cbn [mbind option_bind].
  rewrite (fdiv_ok _ h_min) by done. cbn [mbind result_bind].
  rewrite py_max_Rmax. done.
Qed.

(** C10, as the source has it.  For [0 < h_min <= h_max], [C > 0] and
    exactly one root passing the filter, the solver returns a momentum in
    the closed interval [[0, 1]] and a learning rate that is not negative,
    whatever the rounding.  The bounds are strict in exact arithmetic only:
    a heavy-ball term close to 1 rounds to 1, and then the momentum is 1
    and the learning rate 0. *)
Theorem single_step_mu_lr_rounded_range (C D h_min h_max : R) (z : complex)
    (s : YFOptimizer) :
  0 < h_min <= h_max -> 0 < C ->
  let p2 := - rnd (3 + rnd (rnd (rnd (rnd (D ^ 2) * rnd (h_min ^ 2)) / 2) / C)) in
  root_filter (np_roots [-1; 3; p2; 1]) = [z] ->
  exists mu lr_t : R,
    single_step_mu_lr_rnd rnd np_roots C D h_min h_max s = (Ok (mu, lr_t), s)
    /\ 0 <= mu <= 1 /\ 0 <= lr_t.
Proof.
  intros [Hh Hhh] HC p2 Hroot.
  assert (Hdr : 1 <= rnd (h_max / h_min)).
  { apply rnd_ge_1. apply div_bounds; lra. }
  assert (Hz : 0 < re z < 1).
  { assert (Hin : z ∈ root_filter (np_roots [-1; 3; p2; 1]))
      by (rewrite Hroot; apply list_elem_of_here).
    apply in_root_filter in Hin. tauto. }
  pose proof (heavy_ball_rnd_range _ Hdr) as Hhb. cbv zeta in Hhb.
  eexists _, _. split.
  - apply (single_step_mu_lr_rnd_run C D h_min h_max z s); try lra.
    exact Hroot.
  - set (sq := rnd (sqrt (rnd (h_max / h_min)))) in *.
    set (hb := rnd (rnd (rnd (sq - 1) / rnd (sq + 1)) ^ 2)) in *.
    assert (Hr2 : 0 <= rnd (re z ^ 2) <= 1) by (apply rnd_unit; nra).
    set (mu := Rmax (rnd (re z ^ 2)) hb).
    assert (Hmu : 0 <= mu <= 1).
    { unfold mu. split.
      - eapply Rle_trans; [|apply Rmax_r]. lra.
      - apply Rmax_lub; lra. }
    split; [exact Hmu|].
    apply rnd_nonneg. apply div_bounds; [lra|].
    apply rnd_nonneg. nra.
Qed.

(** X5.  Under rounding, for [0 < h_min <= h_max], [C <> 0] and one root [z]
    passing the filter: the momentum returned is the rounded square of the
    root when [h_min = h_max], the heavy-ball term being 0 then; and the
    learning rate is at most the float [1 / h_min]. *)
Theorem single_step_mu_lr_rounded_bounds (C D h_min h_max : R) (z : complex)
    (s : YFOptimizer) :
  0 < h_min <= h_max -> C <> 0 ->
  let p2 := - rnd (3 + rnd (rnd (rnd (rnd (D ^ 2) * rnd (h_min ^ 2)) / 2) / C)) in
  root_filter (np_roots [-1; 3; p2; 1]) = [z] ->
  exists mu lr_t : R,
    single_step_mu_lr_rnd rnd np_roots C D h_min h_max s = (Ok (mu, lr_t), s)
    /\ rnd (re z ^ 2) <= mu
    /\ (h_min = h_max -> mu = rnd (re z ^ 2))
    /\ lr_t <= rnd (1 / h_min).
Proof.
  intros [Hh Hhh] HC p2 Hroot.
  assert (Hdr : 1 <= rnd (h_max / h_min)).
  { apply rnd_ge_1. apply div_bounds; lra. }
  assert (Hz : 0 < re z < 1).
  { assert (Hin : z ∈ root_filter (np_roots [-1; 3; p2; 1]))
      by (rewrite Hroot; apply list_elem_of_here).
    apply in_root_filter in Hin. tauto. }
  pose proof (heavy_ball_rnd_range _ Hdr) as Hhb. cbv zeta in Hhb.
  eexists _, _. split.
  { apply (single_step_mu_lr_rnd_run C D h_min h_max z s); try lra.
    exact Hroot. }
  assert (Hr2 : 0 <= rnd (re z ^ 2) <= 1) by (apply rnd_unit; nra).
  repeat apply conj.
  - apply Rmax_l.
  - intros Heq. apply Rmax_left.
    replace (h_max / h_min) with 1 by (rewrite Heq; field; lra).
    rewrite rnd_1, sqrt_1, rnd_1.
    replace (1 - 1) with 0 by lra. rewrite rnd_0.
    replace (0 / rnd (1 + 1)) with 0 by (unfold Rdiv; lra).
    rewrite rnd_0. replace (0 ^ 2) with 0 by lra. rewrite rnd_0. lra.
  - set (sq := rnd (sqrt (rnd (h_max / h_min)))) in *.
    set (hb := rnd (rnd (rnd (sq - 1) / rnd (sq + 1)) ^ 2)) in *.
    set (mu := Rmax (rnd (re z ^ 2)) hb).
    assert (Hmu : 0 <= mu <= 1).
    { unfold mu. split.
      - eapply Rle_trans; [|apply Rmax_r]. lra.
      - apply Rmax_lub; lra. }
    assert (Hs : 0 <= sqrt mu <= 1).
    { split; [apply sqrt_pos|]. rewrite <- sqrt_1. apply sqrt_le_1_alt. lra. }
    assert (Hs' : 0 <= rnd (sqrt mu) <= 1) by (apply rnd_unit; done).
    assert (Ht : 0 <= rnd (1 - rnd (sqrt mu)) <= 1) by (apply rnd_unit; lra).
    assert (Ht2 : 0 <= rnd (rnd (1 - rnd (sqrt mu)) ^ 2) <= 1)
      by (apply rnd_unit; nra).
    apply rnd_mono.
    pose proof (Rinv_0_lt_compat h_min Hh) as Hi.
    unfold Rdiv. nra.
Qed.

End RoundedSolver.

(** With the identity for rounding, the rounded solver is the exact one. *)
Lemma single_step_mu_lr_rnd_exact (np_roots : list R -> list complex)
    (C D h_min h_max : R) (s : YFOptimizer) :
  single_step_mu_lr_rnd (fun x => x) np_roots C D h_min h_max s
  = single_step_mu_lr np_roots C D h_min h_max s.
Proof.
  unfold single_step_mu_lr_rnd, single_step_mu_lr, fdiv_rnd, fdiv.
  unfold_monad.
  case_decide; cbn [mbind result_bind fst snd]; [done|].
  destruct (root_filter _) as [|z [|z' l]]; try done.
  case_decide; cbn [mbind result_bind fst snd]; [done|].
  unfold np_sqrt. case_decide; done.
Qed.

(** ** One call of [update] *)

Section Update.

Variable np_roots : list R -> list complex.
Variable sgd_update : tensor -> tensor -> R -> R -> MX.kwargs -> result tensor.
Variable sgd_mom_update :
  tensor -> tensor -> tensor -> R -> R -> MX.kwargs -> result (tensor * tensor).

(** C9. Without a momentum state, [update] hands the weight to plain
    [sgd_update] and runs none of the tuning: the momentum, the
    learning-rate multipliers, the curvature window and every average are
    what they were; only the update counters and the step counter move. *)
Theorem update_without_state (index : nat) (grad wt : tensor) (s : YFOptimizer) :
  let lr := MX._get_lr (base s) index in
  let wd := MX._get_wd (base s) index in
  let out := update np_roots sgd_update sgd_mom_update index grad
               (mkWorld s wt None) in
  let s' := self (snd out) in
  match sgd_update wt grad lr wd (update_kwargs s) with
  | Ok weight' =>
      fst out = Ok tt /\ weight (snd out) = weight'
      /\ _iter s' = (_iter s + 1)%nat
  | Raise e =>
      fst out = Raise e /\ weight (snd out) = wt /\ _iter s' = _iter s
  end
  /\ state (snd out) = None
  /\ momentum s' = momentum s
  /\ MX.lr_mult (base s') = MX.lr_mult (base s)
  /\ MX.lr (base s') = MX.lr (base s)
  /\ _h_window s' = _h_window s
  /\ _h_min s' = _h_min s /\ _h_max s' = _h_max s
  /\ _grad_norm_avg s' = _grad_norm_avg s /\ _h_avg s' = _h_avg s
  /\ _dist_to_opt_avg s' = _dist_to_opt_avg s.
Proof.
  unfold update. unfold_monad. cbn [self weight state].
  replace (update_kwargs (set_base (MX._update_count index) s))
    with (update_kwargs s) by done.
  destruct (sgd_update _ _ _ _ _) as [weight'|e]; cbn; done.
Qed.




End Update.

(** ** A zero [h_min] *)

Section ZeroCurvature.

Variable np_roots : list R -> list complex.

(** C3, as the source has it.  Nothing in the solver looks at [h_min] before
    dividing by it.  Called with [h_min = 0] the solver returns no pair and
    hands the object back unmodified.  With [C <> 0] the cubic is
    [-x^3 + 3x^2 - 3x + 1]: unless exactly one of the roots that [np.roots]
    returns for it passes the filter, the root-count assertion fails first;
    with exactly one, the solver goes on to divide by [h_min] and the
    division faults.  With [C = 0] the division in the coefficient faults. *)
Theorem single_step_mu_lr_zero_h_min (C D h_max : R) (s : YFOptimizer) :
  let survivors := root_filter (np_roots [-1; 3; -3; 1]) in
  let out := single_step_mu_lr np_roots C D 0 h_max s in
  snd out = s
  /\ (C <> 0 -> length survivors <> 1%nat -> fst out = Raise AssertionError)
  /\ (C <> 0 -> length survivors = 1%nat -> fst out = Raise ZeroDivisionError)
  /\ (C = 0 -> fst out = Raise ZeroDivisionError).
Proof.
  intros survivors out. split; [apply single_step_mu_lr_pure|].
  unfold out, single_step_mu_lr. unfold_monad.
  repeat apply conj.
  - intros HC Hl. rewrite (fdiv_ok _ C) by done.
    replace (- (3 + D ^ 2 * 0 ^ 2 / 2 / C)) with (-3) by (field; done).
    fold survivors. destruct survivors as [|z [|z' l]]; cbn [length] in Hl;
      try done; lia.
  - intros HC Hl. rewrite (fdiv_ok _ C) by done.
    replace (- (3 + D ^ 2 * 0 ^ 2 / 2 / C)) with (-3) by (field; done).
    fold survivors. destruct survivors as [|z [|z' l]]; cbn [length] in Hl;
      try lia.
    unfold fdiv. rewrite decide_True by done. done.
  - intros ->. unfold fdiv. rewrite decide_True by done. done.
Qed.

End ZeroCurvature.

(** ** Concrete runs *)

Lemma sqrt_of_square (x y : R) : 0 <= y -> x = y * y -> sqrt x = y.
Proof.
  intros Hy ->. apply sqrt_lem_1; [nra|lra|done].
Qed.

Lemma norm_singleton (x : R) : 0 <= x -> norm [x] = x.
Proof.
  intros Hx. unfold norm. cbn. apply sqrt_of_square; [done|lra].
Qed.

(** *** A root with a negative imaginary part *)

(** C1, at [C = -1, D = 1, h_min = 1, h_max = 1].  The cubic has the roots
    [2] and [0.5 +- 0.5i]: none is real and inside (0,1), so the filter of the
    spec keeps none of them; the filter of the source compares the signed
    imaginary part with [1e-5], keeps [0.5 - 0.5i], the assertion holds and
    the solver returns [(0.25, 0.25)]. *)
Theorem negative_imaginary_root_passes :
  let coef := [-1; 3; - (3 + 1 ^ 2 * 1 ^ 2 / 2 / -1); 1] in
  Forall (is_root coef) (conjugate_pair coef)
  /\ spec_root_filter (conjugate_pair coef) = []
  /\ root_filter (conjugate_pair coef) = [Cplx (1/2) (-1/2)]
  /\ forall s : YFOptimizer,
       single_step_mu_lr conjugate_pair (-1) 1 1 1 s = (Ok (1/4, 1/4), s).
Proof.
  assert (Hf : forall c, root_filter (conjugate_pair c) = [Cplx (1/2) (-1/2)]).
  { intros c. unfold root_filter, conjugate_pair.
    rewrite filter_cons_False by (cbn [re im]; lra).
    rewrite filter_cons_False by (cbn [re im]; lra).
    rewrite filter_cons_True by (cbn [re im]; lra). done. }
  cbv zeta. repeat apply conj.
  - unfold conjugate_pair. repeat constructor;
      unfold is_root, horner, Cadd, Cmul; cbn; f_equal; lra.
  - unfold spec_root_filter, conjugate_pair.
    rewrite filter_cons_False by (cbn [re im]; lra).
    rewrite filter_cons_False
      by (cbn [re im]; rewrite Rabs_pos_eq by lra; lra).
    rewrite filter_cons_False
      by (cbn [re im]; rewrite Rabs_left by lra; lra). done.
  - apply Hf.
  - intros s. unfold single_step_mu_lr. unfold_monad.
    rewrite !fdiv_ok by lra. rewrite Hf.
    unfold np_sqrt. rewrite decide_False by lra.
    cbn [mbind option_bind re]. rewrite py_max_Rmax.
    replace (1 / 1) with 1 by lra. rewrite sqrt_1.
    replace (Rmax ((1 / 2) ^ 2) (((1 - 1) / (1 + 1)) ^ 2)) with (1 / 4)
      by (rewrite Rmax_left; lra).
    rewrite (sqrt_of_square (1 / 4) (1 / 2)) by lra.
    rewrite fdiv_ok by lra.
    replace ((1 - 1 / 2) ^ 2 / 1) with (1 / 4) by lra. done.
Qed.

(** *** A zero [h_min] *)

Lemma roots_near_one_filter (coef : list R) :
  root_filter (roots_near_one coef)
  = [Cplx 0.9999967 0.0000057; Cplx 0.9999967 (-0.0000057)].
Proof.
  unfold root_filter, roots_near_one.
  rewrite filter_cons_False by (cbn [re im]; lra).
  rewrite filter_cons_True by (cbn [re im]; lra).
  rewrite filter_cons_True by (cbn [re im]; lra). done.
Qed.

(** C3 as the spec states it fails at [C = 1, D = 1, h_min = 0, h_max = 1]:
    two of the roots that [np.roots] returns pass the filter, and what the
    solver raises is the assertion failure, not a degenerate-curvature
    failure. *)
Lemma zero_h_min_is_not_degenerate_curvature :
  spec_error_of
    (fst (single_step_mu_lr roots_near_one 1 1 0 1 (create_optimizer kwargs0)))
  <> Some DegenerateCurvatureError.
Proof.
  unfold single_step_mu_lr. unfold_monad.
  rewrite fdiv_ok by lra.
  rewrite roots_near_one_filter. cbn. discriminate.
Qed.

Lemma single_step_mu_lr_zero_h_min_witness :
  single_step_mu_lr roots_near_one 1 1 0 1 (create_optimizer kwargs0)
  = (Raise AssertionError, create_optimizer kwargs0).
Proof.
  destruct (single_step_mu_lr_zero_h_min roots_near_one 1 1 1
              (create_optimizer kwargs0)) as (Hs & Ha & _).
  apply injective_projections; [|exact Hs].
  apply Ha.
  - lra.
  - rewrite roots_near_one_filter. cbn [length]. lia.
Defined.

(** *** A window narrower than 20 *)

(** C4, at [curv_win_width = 1].  The window has one slot and the index is
    taken modulo the literal 20: the first step writes slot 0, the second
    step asks for slot 1 and the write raises [IndexError], whatever the
    gradients. *)
Theorem window_of_width_one_overflows (mom b : R) (zb : bool)
    (kwargs : MX.Optimizer) (g1 g2 : tensor) :
  let s0 := __init__ mom b 1 zb kwargs in
  let out1 := curvature_range g1 s0 in
  let s1 := set_iter (_iter (snd out1) + 1) (snd out1) in
  length (_h_window s0) = 1%nat
  /\ fst out1 = Ok (_h_min (snd out1), _h_max (snd out1))
  /\ _h_window (snd out1) = [norm g1 ^ 2]
  /\ curvature_range g2 s1 = (Raise IndexError, s1).
Proof.
  cbv zeta. unfold curvature_range. unfold_monad. cbn. done.
Qed.

(** *** Witnesses *)

Lemma grad_variance_spec_witness :
  fst (grad_variance (create_optimizer kwargs0) [3; 4]
         (create_state [0; 0]))
  = Ok (tsum (zip_with Rmult
                (zip_with (fun a g => 0.999 * a + (1 - 0.999) * g) [0; 0] [3; 4])
                (zip_with (fun a g => 0.999 * a + (1 - 0.999) * g) [0; 0] [3; 4]))
        / - (1 ^ 2) + norm [3; 4] / 1).
Proof.
  destruct (grad_variance_spec (create_optimizer kwargs0) [3; 4]
              (create_state [0; 0])) as [H _].
  - reflexivity.
  - reflexivity.
  - cbn. lra.
  - rewrite H. reflexivity.
Defined.

Lemma half_root_filter (coef : list R) :
  root_filter (half_root coef) = [Cplx (1/2) 0].
Proof.
  unfold root_filter, half_root.
  rewrite filter_cons_True by (cbn [re im]; lra). done.
Qed.

Lemma single_step_mu_lr_formula_witness :
  exists mu lr_t : R,
    single_step_mu_lr half_root 1 1 1 1 (create_optimizer kwargs0)
    = (Ok (mu, lr_t), create_optimizer kwargs0).
Proof.
  eexists _, _.
  apply (single_step_mu_lr_formula half_root 1 1 1 1 (Cplx (1/2) 0)).
  - lra.
  - lra.
  - lra.
  - apply half_root_filter.
Defined.

Lemma rnd_quarter_mono (x y : R) : x <= y -> rnd_quarter x <= rnd_quarter y.
Proof.
  intros H. unfold rnd_quarter.
  assert (Hz : (Zfloor (x * 4 + 1 / 2) <= Zfloor (y * 4 + 1 / 2))%Z)
    by (apply Zfloor_le; lra).
  apply IZR_le in Hz. lra.
Qed.

Lemma rnd_quarter_at (n : Z) (x : R) :
  IZR n <= x * 4 + 1 / 2 < IZR n + 1 -> rnd_quarter x = IZR n / 4.
Proof. intros H. unfold rnd_quarter. by rewrite (Zfloor_eq n). Qed.

Lemma rnd_quarter_0 : rnd_quarter 0 = 0.
Proof. rewrite (rnd_quarter_at 0); lra. Qed.

Lemma rnd_quarter_1 : rnd_quarter 1 = 1.
Proof. rewrite (rnd_quarter_at 4); lra. Qed.

Lemma single_step_mu_lr_rounded_range_witness :
  exists mu lr_t : R,
    single_step_mu_lr_rnd rnd_quarter half_root 1 1 1 225
      (create_optimizer kwargs0)
    = (Ok (mu, lr_t), create_optimizer kwargs0)
    /\ 0 <= mu <= 1 /\ 0 <= lr_t.
Proof.
  apply (single_step_mu_lr_rounded_range rnd_quarter half_root
           rnd_quarter_mono rnd_quarter_0 rnd_quarter_1
           1 1 1 225 (Cplx (1/2) 0)).
  - lra.
  - lra.
  - apply half_root_filter.
Defined.

Lemma single_step_mu_lr_rounded_bounds_witness :
  exists mu lr_t : R,
    single_step_mu_lr_rnd rnd_quarter half_root 1 1 1 225
      (create_optimizer kwargs0)
    = (Ok (mu, lr_t), create_optimizer kwargs0)
    /\ rnd_quarter (re (Cplx (1/2) 0) ^ 2) <= mu
    /\ (1 = 225 -> mu = rnd_quarter (re (Cplx (1/2) 0) ^ 2))
    /\ lr_t <= rnd_quarter (1 / 1).
Proof.
  apply (single_step_mu_lr_rounded_bounds rnd_quarter half_root
           rnd_quarter_mono rnd_quarter_0 rnd_quarter_1
           1 1 1 225 (Cplx (1/2) 0)).
  - lra.
  - lra.
  - apply half_root_filter.
Defined.

(** The closed bounds are met.  Rounded to quarters, at [h_min = 1] and
    [h_max = 225]: [sqrt(dr)] is 15, [14 / 16 = 0.875] rounds to 1, the
    heavy-ball term is 1, and the solver returns the momentum 1 and the
    learning rate 0. *)
Lemma rounded_solver_meets_the_bounds :
  single_step_mu_lr_rnd rnd_quarter half_root 1 1 1 225
    (create_optimizer kwargs0)
  = (Ok (1, 0), create_optimizer kwargs0).
Proof.
  assert (Hdr : rnd_quarter (225 / 1) = 225)
    by (rewrite (rnd_quarter_at 900); lra).
  rewrite (single_step_mu_lr_rnd_run rnd_quarter half_root 1 1 1 225
             (Cplx (1/2) 0)); try lra; [|apply half_root_filter].
  rewrite Hdr. rewrite (sqrt_of_square 225 15) by lra.
  assert (H15 : rnd_quarter 15 = 15) by (rewrite (rnd_quarter_at 60); lra).
  assert (H14 : rnd_quarter (15 - 1) = 14)
    by (rewrite (rnd_quarter_at 56); lra).
  assert (H16 : rnd_quarter (15 + 1) = 16)
    by (rewrite (rnd_quarter_at 64); lra).
  assert (Hq : rnd_quarter (14 / 16) = 1)
    by (rewrite (rnd_quarter_at 4); lra).
  assert (Hr : rnd_quarter (re (Cplx (1/2) 0) ^ 2) = 1 / 4)
    by (rewrite (rnd_quarter_at 1); cbn [re]; lra).
  rewrite H15, H14, H16, Hq, Hr.
  replace (1 ^ 2) with 1 by lra. rewrite rnd_quarter_1.
  rewrite Rmax_right by lra. rewrite sqrt_1, rnd_quarter_1.
  replace (1 - 1) with 0 by lra. rewrite rnd_quarter_0.
  replace (0 ^ 2) with 0 by lra. rewrite rnd_quarter_0.
  replace (0 / 1) with 0 by lra. rewrite rnd_quarter_0. done.
Qed.

(** The heavy-ball term in binary64, at [C = 1, D = 1, h_min = 1,
    h_max = 2^120]: the cubic is [-x^3 + 3x^2 - 3.5x + 1], one of its roots
    passes the filter, [sqrt(dr)] is [2^60], both [2^60 - 1] and [2^60 + 1]
    round to [2^60], and the solver returns the momentum 1 and the learning
    rate 0: the momentum is not below 1, the learning rate not above 0. *)
Lemma heavy_ball_term_rounds_to_one :
  let C := 1%float in
  let D := 1%float in
  let h_min := 1%float in
  let h_max := 0x1p120%float in
  ((0 <? h_min)%float = true /\ (h_min <=? h_max)%float = true
   /\ (0 <? C)%float = true)
  /\ [-1; 3; - (3 + D * D * (h_min * h_min) / 2 / C); 1]%float
     = [-1; 3; -3.5; 1]%float
  /\ root_filter_f64 (one_real_root [-1; 3; -3.5; 1]%float)
     = [(0x1.a41764a3fcbaep-2, 0)%float]
  /\ exists mu lr_t : float,
       single_step_mu_lr_f64 one_real_root C D h_min h_max = Ok (mu, lr_t)
       /\ mu = 1%float /\ lr_t = 0%float
       /\ (mu <? 1)%float = false /\ (0 <? lr_t)%float = false.
Proof.
  cbv zeta. repeat apply conj; try (vm_compute; reflexivity).
  exists 1%float, 0%float. repeat apply conj; vm_compute; reflexivity.
Qed.

Lemma h_min_le_h_max_witness :
  let s := snd (curvature_range [3; 4] (create_optimizer kwargs0)) in
  _h_min s <= _h_max s.
Proof.
  apply (h_min_le_h_max half_root sgd_update0 sgd_mom_update0
           default_momentum default_beta default_curv_win_width
           default_zero_bias kwargs0).
  - unfold default_beta. lra.
  - apply reach_curvature_range, reach_init.
Defined.


(** ** Further properties of the methods *)

(** *** [curvature_range]: the slot written and the failure *)

(** X1. With a non-zero modulus, [curvature_range] fails exactly when the
    slot [_iter mod curv_win_width] lies outside the window: it then raises
    [IndexError] and leaves the object as it was; otherwise it returns the
    two averages it stored, and the window differs from the old one in that
    slot only, which holds the squared norm of the gradient. *)
Theorem curvature_range_outcome (grad : tensor) (s : YFOptimizer) :
  curv_win_width s <> 0%nat ->
  let i := (_iter s `mod` curv_win_width s)%nat in
  let out := curvature_range grad s in
  ((length (_h_window s) <= i)%nat -> out = (Raise IndexError, s))
  /\ ((i < length (_h_window s))%nat ->
      fst out = Ok (_h_min (snd out), _h_max (snd out))
      /\ _h_window (snd out) = <[i := norm grad ^ 2]> (_h_window s)).
Proof.
  intros HW i out. unfold out, curvature_range. unfold_monad.
  rewrite decide_False by done. cbn [fst snd]. fold i. unfold np_setitem.
  split; intros Hi.
  - rewrite decide_False by lia. done.
  - rewrite decide_True by done. cbn [fst snd _h_window set_h_window].
    assert (Hne : take (curv_win_width s `min` (_iter s + 1))
                    (<[i := norm grad ^ 2]> (_h_window s)) <> []).
    { intros H0. apply (f_equal length) in H0.
      rewrite length_take, length_insert in H0. cbn in H0. lia. }
    destruct (take _ _) as [|x l]; [done|]. cbn. done.
Qed.

Lemma curvature_range_outcome_witness :
  fst (curvature_range [3; 4] (create_optimizer kwargs0))
  = Ok (_h_min (snd (curvature_range [3; 4] (create_optimizer kwargs0))),
        _h_max (snd (curvature_range [3; 4] (create_optimizer kwargs0))))
  /\ _h_window (snd (curvature_range [3; 4] (create_optimizer kwargs0)))
     = <[0%nat := norm [3; 4] ^ 2]> (zeros 20).
Proof.
  apply (curvature_range_outcome [3; 4] (create_optimizer kwargs0)).
  - cbn. lia.
  - cbn. lia.
Defined.

(** *** [zero_debias_factor]: never zero *)

Lemma pow_range (b : R) (n : nat) : 0 <= b < 1 -> 0 <= b ^ (n + 1) < 1.
Proof.
  intros Hb. induction n as [|n IH]; cbn in *; [lra|]. nra.
Qed.

(** X2. For an averaging coefficient [0 <= beta < 1] the debias factor lies
    in (0, 1], whatever the flag and the step counter: the divisions by it
    in [grad_variance] and [dist_to_opt] never meet a zero. *)
Theorem zero_debias_factor_range (s : YFOptimizer) :
  0 <= beta s < 1 -> 0 < zero_debias_factor s <= 1.
Proof.
  intros Hb. unfold zero_debias_factor. destruct (zero_bias s); [lra|].
  pose proof (pow_range (beta s) (_iter s) Hb). lra.
Qed.

Lemma zero_debias_factor_range_witness :
  0 < zero_debias_factor
        (set_iter 7 (set_zero_bias false (create_optimizer kwargs0))) <= 1.
Proof.
  apply zero_debias_factor_range. cbn [beta set_iter set_zero_bias create_optimizer __init__].
  unfold default_beta. lra.
Defined.

(** *** [single_step_mu_lr]: the assertion *)

Section SolverMore.

Variable np_roots : list R -> list complex.

(** X3. With [C] and [h_min] different from 0, the solver returns a pair
    exactly when one root passes the filter; with none or several it raises
    [AssertionError]; in every case it leaves the object untouched. *)
Theorem single_step_mu_lr_assertion (C D h_min h_max : R) (s : YFOptimizer) :
  C <> 0 -> h_min <> 0 ->
  let survivors :=
    root_filter (np_roots [-1; 3; - (3 + D ^ 2 * h_min ^ 2 / 2 / C); 1]) in
  let out := single_step_mu_lr np_roots C D h_min h_max s in
  snd out = s
  /\ (length survivors = 1%nat -> exists mu lr_t, fst out = Ok (mu, lr_t))
  /\ (length survivors <> 1%nat -> fst out = Raise AssertionError).
Proof.
  intros HC Hh survivors out. split; [apply single_step_mu_lr_pure|].
  unfold out, single_step_mu_lr. unfold_monad.
  rewrite (fdiv_ok _ C) by done. fold survivors.
  destruct survivors as [|z [|z' l]]; cbn [length]; split; intros Hl;
    try done; try lia.
  rewrite !(fdiv_ok _ h_min) by done. cbn. eauto.
Qed.

End SolverMore.

Lemma single_step_mu_lr_assertion_witness :
  snd (single_step_mu_lr half_root 1 1 1 1 (create_optimizer kwargs0))
  = create_optimizer kwargs0.
Proof.
  apply (single_step_mu_lr_assertion half_root 1 1 1 1
           (create_optimizer kwargs0)); lra.
Defined.

(** *** The cubic of a positive variance *)

(** The two equations of a root [a + b i] of [-x^3 + 3x^2 - (3+t)x + 1],
    written with [u = a - 1]. *)
Lemma cubic_root_equations (t : R) (z : complex) :
  is_root [-1; 3; - (3 + t); 1] z ->
  let u := re z - 1 in
  let b := im z in
  u * u * u - 3 * u * (b * b) + t * (u + 1) = 0
  /\ b * (3 * (u * u) - b * b + t) = 0.
Proof.
  destruct z as [a b]. unfold is_root, horner, Cadd, Cmul. cbn.
  intros [= Hre Him]. split; lra.
Qed.



Lemma square_pos (x : R) : x <> 0 -> 0 < x ^ 2.
Proof. intros Hx. destruct (Rdichotomy _ _ Hx); nra. Qed.


Section PositiveVariance.

Variable np_roots : list R -> list complex.


End PositiveVariance.


(** *** [update]: what a call keeps, and what a failed call leaves *)

Section UpdateMore.

Variable np_roots : list R -> list complex.
Variable sgd_update : tensor -> tensor -> R -> R -> MX.kwargs -> result tensor.
Variable sgd_mom_update :
  tensor -> tensor -> tensor -> R -> R -> MX.kwargs -> result (tensor * tensor).

(** The configuration and the step counter through [after_apply]; the tuned
    values when it raises. *)
Lemma after_apply_config (index : nat) (grad : tensor) (lr mom : R) (w : world) :
  let out := after_apply np_roots index grad lr mom w in
  let s' := self (snd out) in
  beta s' = beta (self w) /\ zero_bias s' = zero_bias (self w)
  /\ curv_win_width s' = curv_win_width (self w)
  /\ length (_h_window s') = length (_h_window (self w))
  /\ _iter s' = _iter (self w)
  /\ (forall e, fst out = Raise e ->
      momentum s' = momentum (self w) /\ base s' = base (self w)).
Proof.
  unfold after_apply. unfold_monad. cbn [self weight state].
  pose proof (curvature_range_frame grad (self w)) as Hf.
  destruct (curvature_range grad (self w)) as [[[h_min h_max]|e] s1];
    cbn [fst snd self weight state] in *;
    destruct Hf as (Hb1 & Hm1 & Hbeta1 & Hw1 & Hz1 & Hi1 & _ & _ & _ & Hl1);
    [|repeat split; congruence].
  destruct (state w) as [st|]; cbn [fst snd self weight state];
    [|repeat split; congruence].
  destruct (grad_variance s1 grad st) as [[C|e] st'];
    cbn [fst snd self weight state]; [|repeat split; congruence].
  pose proof (dist_to_opt_frame grad s1) as Hd.
  destruct (dist_to_opt grad s1) as [[D|e] s2];
    cbn [fst snd self weight state] in *;
    destruct Hd as (Hb2 & Hm2 & Hbeta2 & Hw2 & Hz2 & Hi2 & _ & _ & Hl2);
    [|repeat split; congruence].
  pose proof (single_step_mu_lr_pure np_roots C D h_min h_max s2) as Hp.
  destruct (single_step_mu_lr np_roots C D h_min h_max s2)
    as [[[mu_t lr_t]|e] s3]; cbn [fst snd self weight state] in *; subst s3.
  - cbn. repeat split; congruence.
  - repeat split; congruence.
Qed.

(** X6. Whatever [update] raises, from a kernel or from the tuning, and with
    or without a state, the step counter and the momentum are what they
    were, and of the base class only the update counters moved: the
    learning-rate multipliers are untouched.  A call that returns has
    incremented the step counter by one. *)
Theorem update_step_counter (index : nat) (grad : tensor) (w : world) :
  let out := update np_roots sgd_update sgd_mom_update index grad w in
  let s' := self (snd out) in
  match fst out with
  | Ok _ => _iter s' = (_iter (self w) + 1)%nat
  | Raise _ =>
      _iter s' = _iter (self w)
      /\ momentum s' = momentum (self w)
      /\ base s' = MX._update_count index (base (self w))
  end.
Proof.
  unfold update. unfold_monad. cbn [self weight state].
  destruct (state w) as [st|]; cbn [fst snd self weight state].
  - destruct (sgd_mom_update _ _ _ _ _ _) as [[weight' mom']|e];
      cbn [fst snd self weight state]; [|done].
    match goal with |- context [after_apply ?r ?i ?g ?l ?m ?w1] =>
      pose proof (after_apply_config i g l m w1) as Ha;
      destruct (after_apply r i g l m w1) as [[[]|e] w2]
    end; cbn [fst snd self weight state] in *;
      destruct Ha as (_ & _ & _ & _ & Hi & He).
    + cbn. rewrite Hi. done.
    + destruct (He e eq_refl) as [Hm Hb]. cbn in *. done.
  - destruct (sgd_update _ _ _ _ _) as [weight'|e];
      cbn [fst snd self weight state]; done.
Qed.

(** X7. From the constructor on, through calls of [curvature_range] and of
    [update] that return or raise, the configuration stays: [beta] and
    [zero_bias] are the arguments, the attribute [curv_win_width] is 20
    whatever the argument was, and the window keeps the length of the
    argument. *)
Theorem configuration_is_kept (mom b : R) (W : nat) (zb : bool)
    (kwargs : MX.Optimizer) (s : YFOptimizer) :
  reachable np_roots sgd_update sgd_mom_update
    (__init__ mom b W zb kwargs) s ->
  beta s = b /\ zero_bias s = zb /\ curv_win_width s = 20%nat
  /\ length (_h_window s) = W.
Proof.
  intros Hr.
  induction Hr as [|s grad Hr IH|s index grad wt st Hr IH].
  - cbn. unfold zeros. rewrite length_replicate. done.
  - pose proof (curvature_range_frame grad s) as
      (_ & _ & Hb & Hw & Hz & _ & _ & _ & _ & Hl).
    destruct IH as (? & ? & ? & ?). repeat split; congruence.
  - destruct IH as (IHb & IHz & IHw & IHl).
    unfold update. unfold_monad. cbn [self weight state].
    destruct st as [st|]; cbn [fst snd self weight state].
    + destruct (sgd_mom_update _ _ _ _ _ _) as [[weight' mom']|e];
        cbn [fst snd self weight state]; [|done].
      match goal with |- context [after_apply ?r ?i ?g ?l ?m ?w1] =>
        pose proof (after_apply_config i g l m w1) as Ha;
        destruct (after_apply r i g l m w1) as [[[]|e] w2]
      end; cbn [fst snd self weight state] in *;
        destruct Ha as (Hb & Hz & Hw & Hl & _); cbn in *;
        repeat split; congruence.
    + destruct (sgd_update _ _ _ _ _) as [weight'|e];
        cbn [fst snd self weight state]; done.
Qed.

End UpdateMore.

Lemma configuration_is_kept_witness :
  let s := snd (curvature_range [3; 4] (__init__ 0 (1/2) 5 false kwargs0)) in
  beta s = 1/2 /\ zero_bias s = false /\ curv_win_width s = 20%nat
  /\ length (_h_window s) = 5%nat.
Proof.
  apply (configuration_is_kept half_root sgd_update0 sgd_mom_update0
           0 (1/2) 5 false kwargs0).
  apply reach_curvature_range, reach_init.
Defined.

(** *** Invariants of the statistics *)

Section Invariants.

Variable np_roots : list R -> list complex.
Variable sgd_update : tensor -> tensor -> R -> R -> MX.kwargs -> result tensor.
Variable sgd_mom_update :
  tensor -> tensor -> tensor -> R -> R -> MX.kwargs -> result (tensor * tensor).

(** A property of the optimizer kept by the two methods that write the
    statistics and by the assignments of [update] is kept by [update]. *)
Lemma update_preserves (P : YFOptimizer -> Prop) :
  (forall g s, P s -> P (snd (curvature_range g s))) ->
  (forall g s, P s -> P (snd (dist_to_opt g s))) ->
  (forall v s, P s -> P (set_momentum v s)) ->
  (forall f s, P s -> P (set_base f s)) ->
  (forall n s, P s -> P (set_iter n s)) ->
  forall index grad w,
    P (self w) ->
    P (self (snd (update np_roots sgd_update sgd_mom_update index grad w))).
Proof.
  intros Hc Hd Hm Hb Hi index grad w HP.
  unfold update. unfold_monad. cbn [self weight state].
  assert (HP1 : P (set_base (MX._update_count index) (self w))) by auto.
  destruct (state w) as [st|]; cbn [fst snd self weight state].
  - destruct (sgd_mom_update _ _ _ _ _ _) as [[weight' mom']|e];
      cbn [fst snd self weight state]; [|done].
    unfold after_apply. unfold_monad. cbn [self weight state].
    pose proof (Hc grad _ HP1) as HP2.
    destruct (curvature_range grad _) as [[[h_min h_max]|e] s1];
      cbn [fst snd self weight state] in *; [|done].
    destruct (grad_variance s1 grad _) as [[C|e] st'];
      cbn [fst snd self weight state]; [|done].
    pose proof (Hd grad _ HP2) as HP3.
    destruct (dist_to_opt grad s1) as [[D|e] s2];
      cbn [fst snd self weight state] in *; [|done].
    pose proof (single_step_mu_lr_pure np_roots C D h_min h_max s2) as Hp.
    destruct (single_step_mu_lr np_roots C D h_min h_max s2)
      as [[[mu_t lr_t]|e] s3]; cbn [fst snd self weight state] in *;
      subst s3; [|done].
    auto.
  - destruct (sgd_update _ _ _ _ _) as [weight'|e];
      cbn [fst snd self weight state]; auto.
Qed.

End Invariants.

Lemma foldr_Rmin_nonneg (x : R) (a : list R) :
  0 <= x -> Forall (Rle 0) a -> 0 <= foldr Rmin x a.
Proof.
  intros Hx Ha. induction Ha as [|y a Hy Ha IH]; cbn; [done|].
  apply Rmin_glb; done.
Qed.

Lemma foldr_Rmax_nonneg (x : R) (a : list R) :
  0 <= x -> 0 <= foldr Rmax x a.
Proof. intros Hx. pose proof (foldr_Rmax_ge x a). lra. Qed.

Lemma norm_nonneg (t : tensor) : 0 <= norm t.
Proof. apply sqrt_pos. Qed.

Lemma curvature_range_nonnegative (grad : tensor) (s : YFOptimizer) :
  0 <= beta s <= 1 -> nonnegative s ->
  nonnegative (snd (curvature_range grad s)).
Proof.
  intros Hb (Hlo & Hhi & Hw & Hg & Ha & Hd).
  unfold curvature_range. unfold_monad. unfold np_setitem.
  repeat (case_decide; cbn [fst snd]); try done.
  assert (Hw' : Forall (Rle 0)
            (<[(_iter s `mod` curv_win_width s)%nat := norm grad ^ 2]>
               (_h_window s))).
  { apply Forall_insert; [done|]. pose proof (norm_nonneg grad). nra. }
  assert (Ht : Forall (Rle 0)
            (take (curv_win_width s `min` (_iter s + 1))
               (<[(_iter s `mod` curv_win_width s)%nat := norm grad ^ 2]>
                  (_h_window s)))) by (by apply Forall_take).
  destruct (take _ _) as [|x l]; cbn; [done|].
  apply Forall_cons in Ht as [Hx Hl].
  pose proof (foldr_Rmin_nonneg x l Hx Hl).
  pose proof (foldr_Rmax_nonneg x l Hx).
  unfold nonnegative; cbn. repeat split; try done; nra.
Qed.

Lemma dist_to_opt_nonnegative (grad : tensor) (s : YFOptimizer) :
  0 <= beta s <= 1 -> nonnegative s ->
  nonnegative (snd (dist_to_opt grad s)).
Proof.
  intros Hb (Hlo & Hhi & Hw & Hg & Ha & Hd).
  pose proof (norm_nonneg grad) as Hn.
  unfold dist_to_opt. unfold_monad. cbn [fst snd].
  set (gna := beta s * _grad_norm_avg s + (1 - beta s) * norm grad).
  set (h_avg := beta s * _h_avg s + (1 - beta s) * norm grad * norm grad).
  assert (Hgna : 0 <= gna) by (unfold gna; nra).
  assert (Hh : 0 <= h_avg) by (unfold h_avg; nra).
  unfold fdiv at 1. case_decide as Hz; cbn [fst snd].
  - unfold nonnegative; cbn. repeat split; done.
  - assert (Hq : 0 <= (1 - beta s) * gna / h_avg).
    { apply div_bounds; [lra|nra]. }
    unfold nonnegative; cbn. repeat split; try done; nra.
Qed.

Section NonNegative.

Variable np_roots : list R -> list complex.
Variable sgd_update : tensor -> tensor -> R -> R -> MX.kwargs -> result tensor.
Variable sgd_mom_update :
  tensor -> tensor -> tensor -> R -> R -> MX.kwargs -> result (tensor * tensor).

(** X8. For an averaging coefficient between 0 and 1, every optimizer
    reached from the constructor has a window of non-negative entries and
    non-negative averages [_h_min], [_h_max], [_grad_norm_avg] and [_h_avg],
    also after calls that raised.  In particular the ratio [h_max / h_min]
    handed to [np.sqrt] is never negative. *)
Theorem statistics_are_nonnegative (mom b : R) (W : nat) (zb : bool)
    (kwargs : MX.Optimizer) (s : YFOptimizer) :
  0 <= b <= 1 ->
  reachable np_roots sgd_update sgd_mom_update
    (__init__ mom b W zb kwargs) s ->
  0 <= _h_min s /\ 0 <= _h_max s /\ Forall (Rle 0) (_h_window s)
  /\ 0 <= _grad_norm_avg s /\ 0 <= _h_avg s.
Proof.
  intros Hb Hr.
  enough (beta s = b /\ nonnegative s) as [_ H]
    by (unfold nonnegative in H; tauto).
  induction Hr as [|s grad Hr [IHb IH]|s index grad wt st Hr [IHb IH]].
  - split; [done|]. unfold nonnegative; cbn. repeat split; try lra.
    unfold zeros. apply Forall_replicate. lra.
  - pose proof (curvature_range_frame grad s) as (_ & _ & Hb' & _).
    split; [congruence|].
    apply curvature_range_nonnegative; [rewrite IHb|]; done.
  - apply (update_preserves np_roots sgd_update sgd_mom_update
             (fun s => beta s = b /\ nonnegative s));
      try (intros ? ? [? ?]; split; done); [| |done].
    + intros g s1 [Hb1 H1].
      pose proof (curvature_range_frame g s1) as (_ & _ & Hb' & _).
      split; [congruence|].
      apply curvature_range_nonnegative; [rewrite Hb1|]; done.
    + intros g s1 [Hb1 H1].
      pose proof (dist_to_opt_frame g s1) as (_ & _ & Hb' & _).
      split; [congruence|].
      apply dist_to_opt_nonnegative; [rewrite Hb1|]; done.
Qed.

End NonNegative.

Lemma statistics_are_nonnegative_witness :
  let s := snd (curvature_range [3; 4] (create_optimizer kwargs0)) in
  0 <= _h_min s /\ 0 <= _h_max s /\ Forall (Rle 0) (_h_window s)
  /\ 0 <= _grad_norm_avg s /\ 0 <= _h_avg s.
Proof.
  apply (statistics_are_nonnegative half_root sgd_update0 sgd_mom_update0
           default_momentum default_beta default_curv_win_width
           default_zero_bias kwargs0).
  - unfold default_beta. lra.
  - apply reach_curvature_range, reach_init.
Defined.

(** *** [grad_variance]: the state it leaves and the value it returns *)

(** The state after a call on operands of one shape, whatever the call
    returns: the two averages are written before the divisions. *)
Lemma grad_variance_state (s : YFOptimizer) (grad : tensor) (st : param_state) :
  length (grad_avg st) = length grad ->
  length (grad_avg_squared st) = length grad ->
  snd (grad_variance s grad st)
  = mkState (st_momentum st)
      (zip_with (fun a g => beta s * a + (1 - beta s) * g) (grad_avg st) grad)
      (zip_with (fun a g => beta s * a + (1 - beta s) * g * g)
         (grad_avg_squared st) grad).
Proof.
  intros Ha Hq. destruct st as [m a q]. cbn [grad_avg grad_avg_squared] in *.
  unfold grad_variance. unfold_monad. cbn [grad_avg grad_avg_squared st_momentum].
  rewrite !ew_ok by (rewrite ?length_scale, ?length_zip_with, ?length_scale; lia).
  rewrite !zip_with_scale, ema_squared.
  repeat (match goal with
          | |- context [match fdiv ?x ?y with Ok _ => _ | Raise _ => _ end] =>
              destruct (fdiv x y); cbn [fst snd]
          end); done.
Qed.

(** The value of a call on operands of one shape, for a debias factor that
    is not 0. *)
Lemma grad_variance_value (s : YFOptimizer) (grad : tensor) (st : param_state) :
  length (grad_avg st) = length grad ->
  length (grad_avg_squared st) = length grad ->
  zero_debias_factor s <> 0 ->
  let ga := zip_with (fun a g => beta s * a + (1 - beta s) * g)
              (grad_avg st) grad in
  fst (grad_variance s grad st)
  = Ok (tsum (zip_with Rmult ga ga) / - (zero_debias_factor s ^ 2)
        + norm grad / zero_debias_factor s).
Proof.
  intros Ha Hq Hd ga. destruct st as [m a q].
  cbn [grad_avg grad_avg_squared] in *.
  unfold grad_variance. unfold_monad. cbn [grad_avg grad_avg_squared st_momentum].
  rewrite !ew_ok by (rewrite ?length_scale, ?length_zip_with, ?length_scale; lia).
  assert (Hd2 : - zero_debias_factor s ^ 2 <> 0) by (intros H; apply Hd; nra).
  rewrite !fdiv_ok by done. rewrite !zip_with_scale. done.
Qed.

Lemma tsum_squares_nonneg (t : tensor) : 0 <= tsum (zip_with Rmult t t).
Proof.
  unfold tsum in *.
  induction t as [|x t IH]; cbn [zip_with foldr]; [lra|]. nra.
Qed.

(** X9. With [zero_bias] set, as by default, and operands of one shape,
    [grad_variance] returns [norm(grad)] minus the sum of the squares of the
    new [grad_avg]: the value never exceeds [norm(grad)], and it is negative
    whenever that sum of squares exceeds [norm(grad)]. *)
Theorem grad_variance_zero_bias (s : YFOptimizer) (grad : tensor)
    (st : param_state) :
  zero_bias s = true ->
  length (grad_avg st) = length grad ->
  length (grad_avg_squared st) = length grad ->
  let ga := grad_avg (snd (grad_variance s grad st)) in
  exists C : R,
    fst (grad_variance s grad st) = Ok C
    /\ C = norm grad - tsum (zip_with Rmult ga ga)
    /\ C <= norm grad
    /\ (norm grad < tsum (zip_with Rmult ga ga) -> C < 0).
Proof.
  intros Hz Ha Hq ga.
  assert (Hd : zero_debias_factor s = 1)
    by (unfold zero_debias_factor; rewrite Hz; done).
  eexists. split.
  - apply grad_variance_value; try done. rewrite Hd. lra.
  - unfold ga. rewrite grad_variance_state by done. cbn [grad_avg].
    rewrite Hd.
    set (q := tsum _). pose proof (tsum_squares_nonneg
      (zip_with (fun a g => beta s * a + (1 - beta s) * g) (grad_avg st) grad)).
    fold q in H.
    assert (Heq : q / - 1 ^ 2 + norm grad / 1 = norm grad - q) by (field).
    rewrite Heq. repeat split; lra.
Qed.

Lemma grad_variance_zero_bias_witness :
  exists C : R,
    fst (grad_variance (create_optimizer kwargs0) [3; 4] (create_state [0; 0]))
    = Ok C
    /\ C <= norm [3; 4].
Proof.
  destruct (grad_variance_zero_bias (create_optimizer kwargs0) [3; 4]
              (create_state [0; 0])) as (C & HC & _ & Hle & _).
  - reflexivity.
  - reflexivity.
  - reflexivity.
  - exists C. split; [exact HC | exact Hle].
Defined.

Lemma ema_of_scaled (b c : R) (g : tensor) :
  zip_with (fun a x => b * a + (1 - b) * x) (scale c g) g
  = scale (b * c + (1 - b)) g.
Proof.
  unfold scale. induction g as [|x g IH]; cbn; [done|].
  rewrite IH. f_equal. lra.
Qed.

Lemma ema_of_scaled_squares (b c : R) (g : tensor) :
  zip_with (fun a x => b * a + (1 - b) * x * x)
    (zip_with Rmult (scale c g) g) g
  = zip_with Rmult (scale (b * c + (1 - b)) g) g.
Proof.
  unfold scale. induction g as [|x g IH]; cbn; [done|].
  rewrite IH. f_equal. lra.
Qed.

Lemma scale_zero_zeros (g : tensor) : zeros (length g) = scale 0 g.
Proof.
  unfold zeros, scale. induction g as [|x g IH]; cbn; [done|].
  rewrite IH. f_equal. lra.
Qed.

(** X10. After [k] calls of [grad_variance] on one gradient [g], starting
    from the state of [create_state] and with one [beta] throughout,
    [grad_avg] is [(1 - beta^k) * g] and [grad_avg_squared] is
    [(1 - beta^k) * g * g], element by element, and the momentum buffer is
    still the zeros it was created with. *)
Theorem grad_variance_constant_gradient (b : R) (ss : list YFOptimizer)
    (grad weight : tensor) :
  Forall (fun s => beta s = b) ss ->
  length weight = length grad ->
  let st := grad_variance_calls ss grad (create_state weight) in
  let k := length ss in
  grad_avg st = scale (1 - b ^ k) grad
  /\ grad_avg_squared st = zip_with Rmult (scale (1 - b ^ k) grad) grad
  /\ st_momentum st = zeros (length weight).
Proof.
  intros Hss Hl.
  assert (Hgen : forall (c : R) (st0 : param_state),
    grad_avg st0 = scale c grad ->
    grad_avg_squared st0 = zip_with Rmult (scale c grad) grad ->
    let st := grad_variance_calls ss grad st0 in
    grad_avg st = scale (1 - b ^ length ss * (1 - c)) grad
    /\ grad_avg_squared st
       = zip_with Rmult (scale (1 - b ^ length ss * (1 - c)) grad) grad
    /\ st_momentum st = st_momentum st0).
  { induction Hss as [|s ss Hs Hss IH]; intros c st0 Ha Hq.
    - cbn. replace (1 - 1 * (1 - c)) with c by lra. done.
    - cbn [grad_variance_calls length].
      assert (Hla : length (grad_avg st0) = length grad)
        by (rewrite Ha; apply length_scale).
      assert (Hlq : length (grad_avg_squared st0) = length grad).
      { rewrite Hq, length_zip_with, length_scale. lia. }
      rewrite grad_variance_state by done. rewrite Hs, Ha, Hq.
      rewrite ema_of_scaled, ema_of_scaled_squares.
      destruct (IH (b * c + (1 - b))
                  (mkState (st_momentum st0) (scale (b * c + (1 - b)) grad)
                     (zip_with Rmult (scale (b * c + (1 - b)) grad) grad))
                  eq_refl eq_refl) as (H1 & H2 & H3).
      cbv zeta in *. rewrite H1, H2, H3. cbn [st_momentum].
      replace (1 - b ^ length ss * (1 - (b * c + (1 - b))))
        with (1 - b ^ S (length ss) * (1 - c)) by (cbn; lra).
      done. }
  cbv zeta.
  destruct (Hgen 0 (create_state weight)) as (H1 & H2 & H3).
  - cbn. rewrite Hl. apply scale_zero_zeros.
  - cbn. rewrite Hl, scale_zero_zeros.
    unfold scale. clear. induction grad as [|x g IH]; cbn; [done|].
    rewrite <- IH. f_equal. lra.
  - cbv zeta in *. rewrite H1, H2, H3.
    replace (1 - b ^ length ss * (1 - 0)) with (1 - b ^ length ss) by lra.
    done.
Qed.

Lemma grad_variance_constant_gradient_witness :
  grad_avg (grad_variance_calls
              [create_optimizer kwargs0;
               set_iter 1 (create_optimizer kwargs0)]
              [3; 4] (create_state [0; 0]))
  = scale (1 - 0.999 ^ 2) [3; 4].
Proof.
  apply (grad_variance_constant_gradient 0.999
           [create_optimizer kwargs0; set_iter 1 (create_optimizer kwargs0)]
           [3; 4] [0; 0]).
  - repeat constructor.
  - reflexivity.
Defined.

(** *** The curvature window over a run of successful updates *)

(** The run of [curvature_range] on a slot inside the window. *)
Lemma curvature_range_in_range (grad : tensor) (s : YFOptimizer) :
  curv_win_width s <> 0%nat ->
  let i := (_iter s `mod` curv_win_width s)%nat in
  let win := <[i := norm grad ^ 2]> (_h_window s) in
  let valid := take (curv_win_width s `min` (_iter s + 1)) win in
  (i < length (_h_window s))%nat ->
  exists lo hi : R,
    np_min valid = Ok lo /\ np_max valid = Ok hi
    /\ curvature_range grad s
       = (Ok (beta s * _h_min s + (1 - beta s) * lo,
              beta s * _h_max s + (1 - beta s) * hi),
          set_h_max (beta s * _h_max s + (1 - beta s) * hi)
            (set_h_min (beta s * _h_min s + (1 - beta s) * lo)
               (set_h_window win s))).
Proof.
  intros HW i win valid Hi.
  assert (Hne : valid <> []).
  { intros H0. apply (f_equal length) in H0.
    unfold valid, win in H0. rewrite length_take, length_insert in H0.
    cbn in H0. lia. }
  destruct valid as [|x l] eqn:Hv; [done|].
  exists (foldr Rmin x l), (foldr Rmax x l). repeat split.
  unfold curvature_range. unfold_monad.
  rewrite decide_False by done. cbn [fst snd]. fold i. unfold np_setitem.
  rewrite decide_True by done. cbn [fst snd _h_window set_h_window].
  fold win. fold valid. rewrite Hv. cbn. done.
Qed.

Section Window.

Variable np_roots : list R -> list complex.
Variable sgd_update : tensor -> tensor -> R -> R -> MX.kwargs -> result tensor.
Variable sgd_mom_update :
  tensor -> tensor -> tensor -> R -> R -> MX.kwargs -> result (tensor * tensor).

(** What a call of [update] with a state that returned did to the window,
    to the two curvature averages and to the step counter. *)
Lemma update_ok_curvature (index : nat) (grad wt : tensor) (st : param_state)
    (s : YFOptimizer) (w' : world) :
  curv_win_width s <> 0%nat ->
  update np_roots sgd_update sgd_mom_update index grad
    (mkWorld s wt (Some st)) = (Ok tt, w') ->
  let i := (_iter s `mod` curv_win_width s)%nat in
  let win := <[i := norm grad ^ 2]> (_h_window s) in
  let valid := take (curv_win_width s `min` (_iter s + 1)) win in
  (i < length (_h_window s))%nat
  /\ _h_window (self w') = win
  /\ _iter (self w') = (_iter s + 1)%nat
  /\ curv_win_width (self w') = curv_win_width s
  /\ beta (self w') = beta s
  /\ exists lo hi : R,
       np_min valid = Ok lo /\ np_max valid = Ok hi
       /\ _h_min (self w') = beta s * _h_min s + (1 - beta s) * lo
       /\ _h_max (self w') = beta s * _h_max s + (1 - beta s) * hi.
Proof.
  intros HW Hup i win valid.
  unfold update in Hup. unfold_monad. cbn [self weight state] in Hup.
  destruct (sgd_mom_update _ _ _ _ _ _) as [[weight' mom']|e];
    cbn [fst snd self weight state] in Hup; [|done].
  unfold after_apply in Hup. unfold_monad. cbn [self weight state] in Hup.
  set (s1 := set_base (MX._update_count index) s) in *.
  destruct (decide (i < length (_h_window s))%nat) as [Hi|Hi].
  - destruct (curvature_range_in_range grad s1 HW Hi)
      as (lo & hi & Hlo & Hhi & Hc).
    rewrite Hc in Hup. cbn [fst snd self weight state] in Hup.
    match type of Hup with context [grad_variance ?a ?b ?c] =>
      destruct (grad_variance a b c) as [[C|e] st'] end;
      cbn [fst snd self weight state] in Hup; [|done].
    match type of Hup with context [dist_to_opt ?a ?b] =>
      pose proof (dist_to_opt_frame a b) as Hd;
      destruct (dist_to_opt a b) as [[D|e] s2] end;
      cbn [fst snd self weight state] in *; [|done].
    destruct Hd as (_ & _ & Hb2 & Hw2 & _ & Hi2 & Hlo2 & Hhi2 & Hwin2).
    match type of Hup with context [single_step_mu_lr ?r ?a ?b ?c ?d ?e] =>
      pose proof (single_step_mu_lr_pure r a b c d e) as Hp;
      destruct (single_step_mu_lr r a b c d e) as [[[mu_t lr_t]|e'] s3] end;
      cbn [fst snd self weight state] in *; [|done].
    subst s3. apply (f_equal snd) in Hup. cbn [snd] in Hup. subst w'. cbn in *.
    repeat apply conj; try done; try congruence.
    exists lo, hi. repeat apply conj; try done; congruence.
  - exfalso.
    assert (Hc : curvature_range grad s1 = (Raise IndexError, s1)).
    { unfold curvature_range. unfold_monad.
      rewrite decide_False by done. cbn [fst snd]. unfold np_setitem.
      rewrite decide_False by done. done. }
    rewrite Hc in Hup. done.
Qed.

End Window.

Section WindowContent.

Variable np_roots : list R -> list complex.
Variable sgd_update : tensor -> tensor -> R -> R -> MX.kwargs -> result tensor.
Variable sgd_mom_update :
  tensor -> tensor -> tensor -> R -> R -> MX.kwargs -> result (tensor * tensor).

(** The invariant of a run from an optimizer made with the window width
    20: configuration, step counter and the slots of the window. *)
Lemma steps_window (mom b : R) (zb : bool)
    (kwargs : MX.Optimizer) (gs : list tensor) (s : YFOptimizer) :
  steps np_roots sgd_update sgd_mom_update
    (__init__ mom b 20 zb kwargs) gs s ->
  curv_win_width s = 20%nat /\ beta s = b /\ _iter s = length gs
  /\ length (_h_window s) = 20%nat
  /\ (forall (k : nat) (g : tensor),
        gs !! k = Some g -> (length gs <= k + 20)%nat ->
        _h_window s !! (k `mod` 20)%nat = Some (norm g ^ 2))
  /\ (forall j : nat,
        (length gs <= j)%nat -> (j < 20)%nat -> _h_window s !! j = Some 0).
Proof.
  intros Hr.
  induction Hr as [|gs s index grad wt st w' Hr (IHw & IHb & IHi & IHl & IHk & IHj) Hup].
  - repeat apply conj; try done.
    intros j _ Hj.
    change (_h_window (__init__ mom b 20 zb kwargs)) with (replicate 20 0).
    apply lookup_replicate_2. lia.
  - assert (HW : curv_win_width s <> 0%nat) by lia.
    destruct (update_ok_curvature np_roots sgd_update sgd_mom_update
                index grad wt st s w' HW Hup)
      as (Hi & Hwin & Hit & Hcw & Hbeta & _).
    rewrite IHw, IHi in *. rewrite length_app. cbn [length].
    repeat apply conj.
    + congruence.
    + congruence.
    + lia.
    + rewrite Hwin, length_insert. done.
    + intros k g Hk Hrecent. rewrite Hwin.
      destruct (decide (k < length gs)%nat) as [Hlt|Hge].
      * rewrite lookup_app_l in Hk by done.
        rewrite list_lookup_insert_ne by mod_lia.
        apply IHk; [done|lia].
      * pose proof (lookup_lt_Some _ _ _ Hk) as Hb.
        rewrite length_app in Hb. cbn in Hb.
        assert (k = length gs) as -> by lia.
        rewrite lookup_app_r in Hk by lia.
        rewrite Nat.sub_diag in Hk. cbn in Hk. injection Hk as <-.
        apply list_lookup_insert_eq. lia.
    + intros j Hj Hj20. rewrite Hwin.
      rewrite list_lookup_insert_ne by mod_lia.
      apply IHj; lia.
Qed.

(** X11. Take an optimizer made with the default window width 20 and let
    [N] calls of [update] with a state return.  Then the step counter is [N],
    and each of the last [min(N, 20)] gradients has its squared norm in the
    window, the gradient of step [k] in slot [k mod 20]; while [N < 20] the
    slots from [N] on still hold 0. *)
Theorem window_holds_recent_samples (mom b : R) (zb : bool)
    (kwargs : MX.Optimizer) (gs : list tensor) (s : YFOptimizer) :
  steps np_roots sgd_update sgd_mom_update
    (__init__ mom b 20 zb kwargs) gs s ->
  _iter s = length gs
  /\ length (_h_window s) = 20%nat
  /\ (forall (k : nat) (g : tensor),
        gs !! k = Some g -> (length gs <= k + 20)%nat ->
        _h_window s !! (k `mod` 20)%nat = Some (norm g ^ 2))
  /\ (forall j : nat,
        (length gs <= j)%nat -> (j < 20)%nat -> _h_window s !! j = Some 0).
Proof.
  intros Hr. pose proof (steps_window mom b zb kwargs gs s Hr). tauto.
Qed.

(** Every slot of the valid part of the window holds the squared norm of one
    of the gradients of the run. *)
Lemma steps_valid_slot (mom b : R) (zb : bool) (kwargs : MX.Optimizer)
    (gs : list tensor) (s : YFOptimizer) (j : nat) :
  steps np_roots sgd_update sgd_mom_update
    (__init__ mom b 20 zb kwargs) gs s ->
  (j < 20 `min` length gs)%nat ->
  exists g : tensor, g ∈ gs /\ _h_window s !! j = Some (norm g ^ 2).
Proof.
  intros Hr Hj.
  destruct (steps_window mom b zb kwargs gs s Hr) as (_ & _ & _ & _ & Hk & _).
  set (N := length gs) in *.
  set (k := (if decide (N <= 20)%nat then j
             else N - 1 - ((N - 1 + 20 - j) `mod` 20))%nat).
  assert (Hkj : (k < N /\ N <= k + 20 /\ k `mod` 20 = j)%nat).
  { unfold k. case_decide.
    - rewrite Nat.mod_small by lia. lia.
    - mod_lia. }
  destruct Hkj as (Hk1 & Hk2 & Hk3).
  destruct (lookup_lt_is_Some_2 gs k Hk1) as [g Hg].
  exists g. split.
  - apply list_elem_of_lookup. eauto.
  - rewrite <- Hk3. apply Hk; done.
Qed.

Lemma np_min_constant (l : list R) (v lo : R) :
  Forall (eq v) l -> np_min l = Ok lo -> lo = v.
Proof.
  destruct l as [|x l]; [done|]. intros Hl [= <-].
  apply Forall_cons in Hl as [<- Hl].
  induction Hl as [|y l <- Hl IH]; cbn; [done|].
  rewrite IH. apply Rmin_left. lra.
Qed.

Lemma np_max_constant (l : list R) (v hi : R) :
  Forall (eq v) l -> np_max l = Ok hi -> hi = v.
Proof.
  destruct l as [|x l]; [done|]. intros Hl [= <-].
  apply Forall_cons in Hl as [<- Hl].
  induction Hl as [|y l <- Hl IH]; cbn; [done|].
  rewrite IH. apply Rmax_left. lra.
Qed.

(** X12. In such a run, when every gradient has the same squared norm [v],
    the two curvature averages are equal, both [(1 - beta^N) * v] after [N]
    steps: the valid part of the window holds [v] only, so its minimum and
    its maximum are [v]. *)
Theorem curvature_of_constant_norm (mom b v : R) (zb : bool)
    (kwargs : MX.Optimizer) (gs : list tensor) (s : YFOptimizer) :
  steps np_roots sgd_update sgd_mom_update
    (__init__ mom b 20 zb kwargs) gs s ->
  Forall (fun g => norm g ^ 2 = v) gs ->
  _h_min s = (1 - b ^ length gs) * v /\ _h_max s = (1 - b ^ length gs) * v.
Proof.
  intros Hr. induction Hr as [|gs s index grad wt st w' Hr IH Hup]; intros Hv.
  - cbn. split; lra.
  - apply Forall_app in Hv as Hv'. destruct Hv' as [Hv1 Hv2].
    destruct (IH Hv1) as [IHlo IHhi].
    pose proof (steps_snoc _ _ _ _ _ _ _ _ _ _ _ Hr Hup) as Hr'.
    destruct (steps_window mom b zb kwargs gs s Hr)
      as (Hcw & Hb & Hi & Hl & _).
    assert (HW : curv_win_width s <> 0%nat) by lia.
    destruct (update_ok_curvature np_roots sgd_update sgd_mom_update
                index grad wt st s w' HW Hup)
      as (_ & Hwin & _ & _ & _ & lo & hi & Hlo & Hhi & Hmin & Hmax).
    rewrite <- Hwin in Hlo, Hhi.
    assert (Hall : Forall (eq v)
              (take (curv_win_width s `min` (_iter s + 1))
                 (_h_window (self w')))).
    { apply Forall_lookup. intros j x Hx.
      apply lookup_take_Some in Hx as [Hx Hj].
      destruct (steps_valid_slot mom b zb kwargs (gs ++ [grad]) (self w') j Hr')
        as (g & Hg & Hs).
      - rewrite Hcw, Hi in Hj. rewrite length_app. cbn [length]. lia.
      - rewrite Hs in Hx. injection Hx as <-.
        symmetry. eapply Forall_forall in Hv; [exact Hv|done]. }
    rewrite (np_min_constant _ _ _ Hall Hlo) in Hmin.
    rewrite (np_max_constant _ _ _ Hall Hhi) in Hmax.
    rewrite Hmin, Hmax, IHlo, IHhi, Hb, length_app. cbn [length].
    replace (length gs + 1)%nat with (S (length gs)) by lia. cbn [pow].
    split; lra.
Qed.

End WindowContent.

(** A first call of [update] that returns: one weight, the gradient [[1]],
    [beta = 1/2]. *)
Lemma first_update_returns :
  exists w' : world,
    update half_root sgd_update0 sgd_mom_update0 0 [1]
      (mkWorld (__init__ 0 (1/2) 20 true kwargs0) [1] (Some (create_state [1])))
    = (Ok tt, w').
Proof.
  set (s := __init__ 0 (1/2) 20 true kwargs0).
  eassert (Hsgd : sgd_mom_update0 [1] [1] (st_momentum (create_state [1]))
             (MX._get_lr (base s) 0) (MX._get_wd (base s) 0)
             (update_kwargs (set_base (MX._update_count 0) s))
           = Ok (_, _)).
  { cbn. reflexivity. }
  eassert (Hc : curvature_range [1] (set_base (MX._update_count 0) s)
                = (Ok (1/2, 1/2), _)).
  { unfold curvature_range. unfold_monad. cbn. simpl.
    rewrite norm_singleton by lra.
    replace (1 / 2 * 0 + (1 - 1 / 2) * (1 * (1 * 1))) with (1 / 2) by lra.
    reflexivity. }
  match type of Hc with _ = (_, ?x) => set (sa := x) in * end.
  match type of Hsgd with _ = Ok (_, ?m) => set (mom' := m) in * end.
  eassert (Hg : grad_variance sa [1]
                  (mkState mom' (grad_avg (create_state [1]))
                     (grad_avg_squared (create_state [1])))
                = (Ok (3/4), _)).
  { unfold grad_variance. unfold_monad. cbn.
    repeat (rewrite ew_ok by reflexivity; cbn).
    rewrite norm_singleton by lra. rewrite !fdiv_ok by lra.
    match goal with |- (Ok ?x, _) = _ =>
      replace x with (3/4) by (unfold tsum; cbn; field) end.
    reflexivity. }
  eassert (Hd : dist_to_opt [1] sa = (Ok (1/2), _)).
  { unfold dist_to_opt. unfold_monad. cbn.
    rewrite !norm_singleton by lra.
    rewrite !fdiv_ok by lra.
    match goal with |- (Ok ?x, _) = _ => replace x with (1/2) by field end.
    reflexivity. }
  match type of Hd with _ = (_, ?x) => set (sb := x) in * end.
  pose proof (single_step_mu_lr_run half_root (3/4) (1/2) (1/2) (1/2)
                (Cplx (1/2) 0) sb ltac:(lra) ltac:(lra) ltac:(lra)
                (half_root_filter _)) as Hs.
  cbv zeta in Hs.
  eexists. unfold update, after_apply. unfold_monad.
  cbn [self weight state]. fold s. rewrite Hsgd.
  cbn [self weight state]. rewrite Hc.
  cbn [self weight state]. rewrite Hg.
  cbn [self weight state]. rewrite Hd.
  cbn [self weight state]. rewrite Hs.
  cbn [self weight state]. reflexivity.
Qed.

Lemma window_holds_recent_samples_witness :
  exists s : YFOptimizer,
    _iter s = 1%nat /\ _h_window s !! 0%nat = Some (norm [1] ^ 2).
Proof.
  destruct first_update_returns as [w' Hup].
  exists (self w').
  destruct (window_holds_recent_samples half_root sgd_update0 sgd_mom_update0
              0 (1/2) true kwargs0 ([] ++ [[1]]) (self w'))
    as (Hi & _ & Hk & _).
  - eapply steps_snoc; [apply steps_nil | exact Hup].
  - split; [exact Hi|]. apply (Hk 0%nat [1]); [reflexivity | cbn; lia].
Defined.

Lemma curvature_of_constant_norm_witness :
  exists s : YFOptimizer,
    _h_min s = (1 - (1/2) ^ 1) * 1 /\ _h_max s = (1 - (1/2) ^ 1) * 1.
Proof.
  destruct first_update_returns as [w' Hup].
  exists (self w').
  apply (curvature_of_constant_norm half_root sgd_update0 sgd_mom_update0
           0 (1/2) 1 true kwargs0 ([] ++ [[1]]) (self w')).
  - eapply steps_snoc; [apply steps_nil | exact Hup].
  - repeat constructor. rewrite norm_singleton by lra. lra.
Defined.

(** *** The cubic of a negative variance *)

Section NegativeVariance.

Variable np_roots : list R -> list complex.

(** X15. For [C < 0], [D <> 0] and [h_min <> 0], let [np.roots] return roots
    of the cubic.  Then no root that the filter keeps is real: what the
    solver returns for a negative variance, if it returns, is computed from
    the real part of a root with a non-zero imaginary part. *)
Theorem negative_variance_no_real_candidate (C D h_min : R) :
  C < 0 -> D <> 0 -> h_min <> 0 ->
  let coef := [-1; 3; - (3 + D ^ 2 * h_min ^ 2 / 2 / C); 1] in
  (forall z, z ∈ np_roots coef -> is_root coef z) ->
  forall z, z ∈ root_filter (np_roots coef) -> im z <> 0.
Proof.
  intros HC HD Hh coef Hroots z Hz Him.
  set (t := D ^ 2 * h_min ^ 2 / 2 / C) in *.
  assert (Ht : t < 0).
  { pose proof (square_pos D HD). pose proof (square_pos h_min Hh).
    assert (Hn : 0 < - t).
    { unfold t. replace (- (D ^ 2 * h_min ^ 2 / 2 / C))
        with (D ^ 2 * h_min ^ 2 / 2 / - C) by (field; lra).
      apply div_bounds; [lra|]. apply div_bounds; [lra|]. nra. }
    lra. }
  apply in_root_filter in Hz as [(Hre0 & Hre1 & _) Hz].
  apply Hroots, cubic_root_equations in Hz as [H1 _].
  rewrite Him in H1.
  set (u := re z - 1) in *.
  assert (Hu : -1 < u < 0) by (unfold u; lra).
  assert (Hu3 : u * u * u < 0) by nra.
  nra.
Qed.

End NegativeVariance.

Lemma negative_variance_no_real_candidate_witness :
  im (Cplx (1/2) (-1/2)) <> 0.
Proof.
  apply (negative_variance_no_real_candidate conjugate_pair (-1) 1 1).
  - lra.
  - lra.
  - lra.
  - intros z Hz. unfold conjugate_pair in Hz.
    rewrite !elem_of_cons, elem_of_nil in Hz.
    destruct Hz as [->|[->|[->|[]]]];
      unfold is_root, horner, Cadd, Cmul; cbn; f_equal; lra.
  - apply in_root_filter. split.
    + cbn [re im]. lra.
    + unfold conjugate_pair. set_solver.
Defined.

(** *** The distance averages over a run of successful updates *)

(** The run of [dist_to_opt] when it returns. *)
Lemma dist_to_opt_ok (grad : tensor) (s s' : YFOptimizer) (D : R) :
  dist_to_opt grad s = (Ok D, s') ->
  let gna := beta s * _grad_norm_avg s + (1 - beta s) * norm grad in
  let h_avg := beta s * _h_avg s + (1 - beta s) * norm grad * norm grad in
  let d := beta s * _dist_to_opt_avg s + (1 - beta s) * gna / h_avg in
  h_avg <> 0 /\ zero_debias_factor s <> 0
  /\ D = d / zero_debias_factor s
  /\ _grad_norm_avg s' = gna /\ _h_avg s' = h_avg /\ _dist_to_opt_avg s' = d.
Proof.
  intros H gna h_avg d. unfold dist_to_opt in H. unfold_monad.
  cbn [fst snd] in H. fold gna h_avg in H. unfold fdiv at 1 in H.
  case_decide as Hh; cbn [fst snd] in H; [done|]. fold d in H.
  change (zero_debias_factor
            (set_dist_to_opt_avg d (set_h_avg h_avg (set_grad_norm_avg gna s))))
    with (zero_debias_factor s) in H.
  unfold fdiv in H. case_decide as Hz; [done|].
  injection H as <- <-. cbn. done.
Qed.

Section Distance.

Variable np_roots : list R -> list complex.
Variable sgd_update : tensor -> tensor -> R -> R -> MX.kwargs -> result tensor.
Variable sgd_mom_update :
  tensor -> tensor -> tensor -> R -> R -> MX.kwargs -> result (tensor * tensor).

(** What a call of [update] with a state that returned did to the three
    averages of [dist_to_opt]. *)
Lemma update_ok_distance (index : nat) (grad wt : tensor) (st : param_state)
    (s : YFOptimizer) (w' : world) :
  update np_roots sgd_update sgd_mom_update index grad
    (mkWorld s wt (Some st)) = (Ok tt, w') ->
  let gna := beta s * _grad_norm_avg s + (1 - beta s) * norm grad in
  let h_avg := beta s * _h_avg s + (1 - beta s) * norm grad * norm grad in
  h_avg <> 0
  /\ beta (self w') = beta s
  /\ _grad_norm_avg (self w') = gna
  /\ _h_avg (self w') = h_avg
  /\ _dist_to_opt_avg (self w')
     = beta s * _dist_to_opt_avg s + (1 - beta s) * gna / h_avg.
Proof.
  intros Hup gna h_avg.
  unfold update in Hup. unfold_monad. cbn [self weight state] in Hup.
  destruct (sgd_mom_update _ _ _ _ _ _) as [[weight' mom']|e];
    cbn [fst snd self weight state] in Hup; [|done].
  unfold after_apply in Hup. unfold_monad. cbn [self weight state] in Hup.
  match type of Hup with context [curvature_range ?a ?b] =>
    pose proof (curvature_range_frame a b) as Hf;
    destruct (curvature_range a b) as [[[h_min h_max]|e] s1] end;
    cbn [fst snd self weight state] in *; [|done].
  destruct Hf as (_ & _ & Hb1 & _ & _ & _ & Hg1 & Ha1 & Hd1 & _).
  match type of Hup with context [grad_variance ?a ?b ?c] =>
    destruct (grad_variance a b c) as [[C|e] st'] end;
    cbn [fst snd self weight state] in Hup; [|done].
  pose proof (dist_to_opt_frame grad s1) as Hfr.
  destruct (dist_to_opt grad s1) as [[D|e] s2] eqn:Hd;
    cbn [fst snd self weight state] in *; [|done].
  apply dist_to_opt_ok in Hd as (Hh & _ & _ & Hg2 & Ha2 & Hd2).
  match type of Hup with context [single_step_mu_lr ?r ?a ?b ?c ?d ?e] =>
    pose proof (single_step_mu_lr_pure r a b c d e) as Hp;
    destruct (single_step_mu_lr r a b c d e) as [[[mu_t lr_t]|e'] s3] end;
    cbn [fst snd self weight state] in *; [|done].
  subst s3. apply (f_equal snd) in Hup. cbn [snd] in Hup. subst w'.
  cbn in *. rewrite Hb1, Hg1, Ha1, Hd1 in *.
  fold gna h_avg in Hh, Hg2, Ha2, Hd2.
  repeat apply conj; try done.
  destruct Hfr as (_ & _ & Hb2 & _). congruence.
Qed.

(** X13. In a run of calls of [update] with a state that all returned,
    when every gradient has the same norm [n], after [N] steps
    [_grad_norm_avg] is [(1 - beta^N) * n], [_h_avg] is
    [(1 - beta^N) * n^2] and [_dist_to_opt_avg] is [(1 - beta^N) / n]:
    divided by the factor [1 - beta^N], the distance average is [1/n]. *)
Theorem distance_of_constant_norm (mom b n : R) (W : nat) (zb : bool)
    (kwargs : MX.Optimizer) (gs : list tensor) (s : YFOptimizer) :
  steps np_roots sgd_update sgd_mom_update
    (__init__ mom b W zb kwargs) gs s ->
  Forall (fun g => norm g = n) gs ->
  let c := 1 - b ^ length gs in
  beta s = b
  /\ _grad_norm_avg s = c * n
  /\ _h_avg s = c * n ^ 2
  /\ _dist_to_opt_avg s = c / n
  /\ (gs <> [] -> c <> 0 /\ n <> 0 /\ _dist_to_opt_avg s / c = 1 / n).
Proof.
  intros Hr. induction Hr as [|gs s index grad wt st w' Hr IH Hup]; intros Hn.
  - cbn. repeat apply conj; try done; lra.
  - apply Forall_app in Hn as [Hn1 Hn2].
    apply Forall_cons in Hn2 as [Hn2 _]. cbv beta in Hn2.
    destruct (IH Hn1) as (IHb & IHg & IHa & IHd & _).
    pose proof (update_ok_distance index grad wt st s w' Hup) as H.
    cbv zeta in H. destruct H as (Hh & Hb & Hg & Ha & Hd).
    rewrite ?IHb, ?IHg, ?IHa, ?IHd, ?Hn2 in Hh.
    rewrite ?IHb, ?IHg, ?IHa, ?IHd, ?Hn2 in Hb.
    rewrite ?IHb, ?IHg, ?IHa, ?IHd, ?Hn2 in Hg.
    rewrite ?IHb, ?IHg, ?IHa, ?IHd, ?Hn2 in Ha.
    rewrite ?IHb, ?IHg, ?IHa, ?IHd, ?Hn2 in Hd.
    rewrite length_app. cbn [length].
    replace (length gs + 1)%nat with (S (length gs)) by lia. cbn [pow].
    set (p := b ^ length gs) in *.
    assert (Hh' : b * ((1 - p) * n ^ 2) + (1 - b) * n * n
                  = (1 - b * p) * n ^ 2) by ring.
    rewrite Hh' in Hh, Hd.
    assert (Hc : 1 - b * p <> 0) by (intros H0; apply Hh; rewrite H0; ring).
    assert (Hn0 : n <> 0) by (intros H0; apply Hh; rewrite H0; ring).
    cbv zeta. repeat apply conj.
    + done.
    + rewrite Hg. ring.
    + rewrite Ha. exact Hh'.
    + rewrite Hd. field. split; [done|]. done.
    + intros _. repeat apply conj; try done.
      rewrite Hd. field. split; [done|]. done.
Qed.

End Distance.

Lemma distance_of_constant_norm_witness :
  exists s : YFOptimizer,
    _grad_norm_avg s = (1 - (1/2) ^ 1) * 1
    /\ _dist_to_opt_avg s = (1 - (1/2) ^ 1) / 1.
Proof.
  destruct first_update_returns as [w' Hup].
  exists (self w').
  destruct (distance_of_constant_norm half_root sgd_update0 sgd_mom_update0
              0 (1/2) 1 20 true kwargs0 ([] ++ [[1]]) (self w'))
    as (_ & Hg & _ & Hd & _).
  - eapply steps_snoc; [apply steps_nil | exact Hup].
  - repeat constructor. rewrite norm_singleton by lra. lra.
  - split; [exact Hg | exact Hd].
Defined.
